(** * Voxel sandbox: world store, pick ray, inventory and TNT

    A shallow embedding of the voxel game component (the variant with TNT):
    [generateTerrain], [getBlock], [setBlock], [igniteTNT], [explodeTNT],
    [raycast], [breakBlock], [placeBlock], the step of one entity in the
    TNT pass of [gameLoop], the player update of [gameLoop] with its
    [checkCollision], [handleMouseMove], [startGame] and the click on a
    block of the creative menu.

    Numbers.  The source computes with JavaScript numbers.  Voxel and chunk
    coordinates are always integral there (results of [Math.floor]) and are
    modelled in [Z]; positions, velocities, angles and random draws are
    modelled as exact rationals [Q].  [Math.sin], [Math.cos] and the draws
    that [generateTerrain] takes from [Math.random] are inputs of the model,
    collected in the class [Host]. *)

From Stdlib Require Import Reals Qreals Lra.
From Stdlib Require Import ZArith QArith Qround Qminmax Lia Lqa.
From stdpp Require Import base decidable option list strings gmap.

Local Open Scope Z_scope.

(** ** Host functions *)

(** What the program takes from the JavaScript host.  [Math_random_tree cx cz
    x z] is the draw that [generateTerrain cx cz] takes for the column
    [(x, z)] of the chunk when it decides whether a tree grows there; a
    chunk is generated once, at its first access, and never again while the
    chunk map is not cleared.  The draws of [igniteTNT] and [explodeTNT] are
    arguments of these functions.  Sine and cosine stay within [-1, 1]. *)
Class Host := {
  Math_sin : Q -> Q;
  Math_cos : Q -> Q;
  Math_random_tree : Z -> Z -> Z -> Z -> Q;
  Math_sin_range : forall a, (-1 <= Math_sin a /\ Math_sin a <= 1)%Q;
  Math_cos_range : forall a, (-1 <= Math_cos a /\ Math_cos a <= 1)%Q;
}.

(** Strict comparison of two numbers, [a < b]. *)
Definition Qltb (a b : Q) : bool := negb (Qle_bool b a).

(** ** Blocks *)

Inductive BlockType :=
  | air | grass | dirt | stone | wood | planks | leaves | water | sand
  | cobblestone | glass | brick | tnt.

#[global] Instance BlockType_eq_dec : EqDecision BlockType.
Proof. solve_decision. Defined.

Record Block := mkBlock { type : BlockType }.

#[global] Instance Block_eq_dec : EqDecision Block.
Proof. solve_decision. Defined.

(** ** Chunk coordinates *)

Definition CHUNK_SIZE : Z := 16.
Definition WORLD_HEIGHT : Z := 64.

(** [Math.floor(x / CHUNK_SIZE)] *)
Definition chunkCoord (x : Z) : Z :=
  Qfloor (inject_Z x / inject_Z CHUNK_SIZE).

(** [((x % CHUNK_SIZE) + CHUNK_SIZE) % CHUNK_SIZE]; the remainder of
    JavaScript takes the sign of the dividend, as [Z.rem] does. *)
Definition localIndex (x : Z) : Z :=
  Z.rem (Z.rem x CHUNK_SIZE + CHUNK_SIZE) CHUNK_SIZE.

(** ** Chunks *)

(** A chunk is the nested array [Block[][][]] indexed [chunk[x][y][z]],
    16 by 64 by 16. *)
Abbreviation Chunk := (list (list (list Block))).

Definition chunk_wf (c : Chunk) : Prop :=
  length c = 16%nat /\
  Forall (fun col => length col = 64%nat /\
                     Forall (fun row : list Block => length row = 16%nat) col) c.

(** The freshly allocated chunk, every cell [{ type: 'air' }]. *)
Definition emptyChunk : Chunk :=
  replicate 16 (replicate 64 (replicate 16 (mkBlock air))).

(** [chunk[x][y][z]].  On a well-formed chunk and indices inside
    16 x 64 x 16, the only way the program reads a chunk, the cell exists
    (lemma [chunkRead_lookup]). *)
Definition chunkRead (x y z : Z) (c : Chunk) : Block :=
  default (mkBlock air)
    (row ← (col ← c !! Z.to_nat x; col !! Z.to_nat y); row !! Z.to_nat z).

(** [chunk[x][y][z] = b], the cell replaced in place.  Every write of the
    program is inside 16 x 64 x 16: [getBlock] and [setBlock] guard [y] and
    reduce [x] and [z] modulo 16, and the writes of [generateTerrain] are
    bounded by the terrain height (lemma [terrainHeight_range]). *)
Definition chunkWrite (x y z : Z) (b : Block) (c : Chunk) : Chunk :=
  if bool_decide (0 <= x /\ 0 <= y /\ 0 <= z)
  then alter (alter (fun row => <[Z.to_nat z := b]> row) (Z.to_nat y)) (Z.to_nat x) c
  else c.

(** ** Entities, player and inventory *)

Record TNTEntity := mkTNT {
  tnt_x : Q; tnt_y : Q; tnt_z : Q;
  tnt_velX : Q; tnt_velY : Q; tnt_velZ : Q;
  tnt_fuse : Z;
}.

Inductive PlayerMode := survival | creative.

Record Player := mkPlayer {
  player_x : Q; player_y : Q; player_z : Q;
  velY : Q;
  angleX : Q; angleY : Q;
  selectedSlot : nat;
  onGround : bool;
  mode : PlayerMode;
}.

(** [{ type: BlockType | null; count: number }] *)
Record InventorySlot := mkSlot {
  slot_type : option BlockType;
  count : Z;
}.

(** The result of [raycast]: [{ x, y, z, face }]. *)
Record Hit := mkHit {
  hit_x : Z; hit_y : Z; hit_z : Z;
  face : nat;
}.

(** ** Square roots

    [Math.sqrt] of an integer is compared with rationals only; both
    comparisons are decided on the squares. *)

(** [Math.sqrt(n) <= q] *)
Definition sqrt_le (n : Z) (q : Q) : bool :=
  Qle_bool 0 q && Qle_bool (inject_Z n) (q * q).

(** [r > Math.sqrt(n) / radius * 0.5] for a positive [radius], that is
    [Math.sqrt(n) < r * radius / 0.5]. *)
Definition random_exceeds (r : Q) (n : Z) (radius : Q) : bool :=
  let q := (r * radius / 0.5)%Q in
  Qltb 0 q && Qltb (inject_Z n) (q * q).

(** ** Terrain generator *)

Section Model.
Context `{Host}.

Definition terrainHeight (worldX worldZ : Z) : Z :=
  let baseHeight := 32%Q in
  let noise1 := (Math_sin (inject_Z worldX * 0.05) * Math_cos (inject_Z worldZ * 0.05) * 3)%Q in
  let noise2 := (Math_sin (inject_Z worldX * 0.02) * Math_cos (inject_Z worldZ * 0.02) * 8)%Q in
  Qfloor (baseHeight + noise1 + noise2).

Definition terrainBiome (worldX worldZ : Z) : Q :=
  (Math_sin (inject_Z worldX * 0.01) + Math_cos (inject_Z worldZ * 0.01))%Q.

(** The block written at height [y] of a column, [for (y = 0; y < height; y++)]. *)
Definition columnLayer (height : Z) (biome : Q) (y : Z) : Block :=
  if y =? 0 then mkBlock stone
  else if y <? height - 4 then mkBlock stone
  else if y <? height - 1 then mkBlock dirt
  else if Qltb 0.5 biome then mkBlock sand
  else mkBlock grass.

(** The leaf canopy, the loops over [dx], [dz] and [dy]. *)
Definition placeLeaves (x z height : Z) (chunk : Chunk) : Chunk :=
  foldl (fun chunk dx =>
    foldl (fun chunk dz =>
      foldl (fun chunk dy =>
        let nx := x + dx in
        let nz := z + dz in
        let ny := height + 4 + dy in
        if (0 <=? nx) && (nx <? CHUNK_SIZE) && (0 <=? nz) && (nz <? CHUNK_SIZE)
           && (ny <? WORLD_HEIGHT)
        then if Z.abs dx + Z.abs dz <=? 2
             then chunkWrite nx ny nz (mkBlock leaves) chunk
             else chunk
        else chunk)
      chunk (seqZ 0 3))
    chunk (seqZ (-2) 5))
  chunk (seqZ (-2) 5).

(** The body of the loops over [x] and [z]. *)
Definition generateColumn (chunkX chunkZ x z : Z) (chunk : Chunk) : Chunk :=
  let worldX := chunkX * CHUNK_SIZE + x in
  let worldZ := chunkZ * CHUNK_SIZE + z in
  let height := terrainHeight worldX worldZ in
  let biome := terrainBiome worldX worldZ in
  let chunk :=
    foldl (fun chunk y => chunkWrite x y z (columnLayer height biome y) chunk)
          chunk (seqZ 0 height) in
  let chunk :=
    if Qle_bool biome 0.5 && Qltb (Math_random_tree chunkX chunkZ x z) 0.015
       && (height <? WORLD_HEIGHT - 6)
    then
      let chunk :=
        foldl (fun chunk y => chunkWrite x y z (mkBlock wood) chunk)
              chunk (seqZ height 5) in
      placeLeaves x z height chunk
    else chunk in
  if Qltb 0.5 biome && (30 <? height) && (height <? 34)
  then chunkWrite x (height + 1) z (mkBlock water)
         (chunkWrite x height z (mkBlock water) chunk)
  else chunk.

Definition generateTerrain (chunkX chunkZ : Z) : Chunk :=
  foldl (fun chunk x =>
    foldl (fun chunk z => generateColumn chunkX chunkZ x z chunk)
          chunk (seqZ 0 CHUNK_SIZE))
  emptyChunk (seqZ 0 CHUNK_SIZE).

(** ** World store *)

(** [worldRef.current], a [Map] from the key of a chunk to the chunk.  The
    key is the string [`${chunkX},${chunkZ}`], which determines the pair of
    integers; the pair itself is the key here. *)
Definition getChunkKey (chunkX chunkZ : Z) : Z * Z := (chunkX, chunkZ).

Definition getBlock (x y z : Z) (world : gmap (Z * Z) Chunk)
  : Block * gmap (Z * Z) Chunk :=
  let chunkX := chunkCoord x in
  let chunkZ := chunkCoord z in
  let key := getChunkKey chunkX chunkZ in
  let world :=
    match world !! key with
    | Some _ => world
    | None => <[key := generateTerrain chunkX chunkZ]> world
    end in
  let chunk := default emptyChunk (world !! key) in
  let localX := localIndex x in
  let localZ := localIndex z in
  if (y <? 0) || (WORLD_HEIGHT <=? y) then (mkBlock air, world)
  else (chunkRead localX y localZ chunk, world).

Definition setBlock (x y z : Z) (block : Block) (world : gmap (Z * Z) Chunk)
  : gmap (Z * Z) Chunk :=
  let chunkX := chunkCoord x in
  let chunkZ := chunkCoord z in
  let key := getChunkKey chunkX chunkZ in
  let world :=
    match world !! key with
    | Some _ => world
    | None => <[key := generateTerrain chunkX chunkZ]> world
    end in
  let chunk := default emptyChunk (world !! key) in
  let localX := localIndex x in
  let localZ := localIndex z in
  if (0 <=? y) && (y <? WORLD_HEIGHT)
  then <[key := chunkWrite localX y localZ block chunk]> world
  else world.

(** ** Game state *)

(** The state of the component: [worldRef.current], and the React states
    [tntEntities], [inventory] and [player]. *)
Record Game := mkGame {
  world : gmap (Z * Z) Chunk;
  tntEntities : list TNTEntity;
  inventory : list InventorySlot;
  player : Player;
}.

Definition withWorld (world : gmap (Z * Z) Chunk) (g : Game) : Game :=
  mkGame world (tntEntities g) (inventory g) (player g).

Definition withInventory (inventory : list InventorySlot) (g : Game) : Game :=
  mkGame (world g) (tntEntities g) inventory (player g).

(** ** TNT *)

(** [igniteTNT(x, y, z)].  [draw1] and [draw2] are the two results of
    [Math.random()] that give the new entity its horizontal velocity. *)
Definition igniteTNT (draw1 draw2 : Q) (x y z : Z) (g : Game) : Game :=
  mkGame
    (setBlock x y z (mkBlock air) (world g))
    (tntEntities g ++
       [mkTNT (inject_Z x + 0.5) (inject_Z y + 0.5) (inject_Z z + 0.5)
              ((draw1 - 0.5) * 0.02) 0.2 ((draw2 - 0.5) * 0.02) 80])
    (inventory g)
    (player g).

(** The body of the three loops of [explodeTNT], at the offset
    [(dx, dy, dz)].  [blast dx dy dz] is the result of the call of
    [Math.random()] in the destruction test at that offset, and
    [spark dx dy dz] the two draws of the ignition at that offset. *)
Definition explodeCell (blast : Z -> Z -> Z -> Q) (spark : Z -> Z -> Z -> Q * Q)
    (x y z : Q) (dx dy dz : Z) (g : Game) : Game :=
  let radius := 4%Q in
  let dist2 := dx * dx + dy * dy + dz * dz in
  if sqrt_le dist2 radius then
    let bx := Qfloor (x + inject_Z dx) in
    let by_ := Qfloor (y + inject_Z dy) in
    let bz := Qfloor (z + inject_Z dz) in
    let '(block, w) := getBlock bx by_ bz (world g) in
    let g := withWorld w g in
    if decide (type block = tnt) then
      igniteTNT (spark dx dy dz).1 (spark dx dy dz).2 bx by_ bz g
    else if negb (bool_decide (type block = air))
            && random_exceeds (blast dx dy dz) dist2 radius
    then withWorld (setBlock bx by_ bz (mkBlock air) (world g)) g
    else g
  else g.

Definition explodeTNT (blast : Z -> Z -> Z -> Q) (spark : Z -> Z -> Z -> Q * Q)
    (x y z : Q) (g : Game) : Game :=
  foldl (fun g dx =>
    foldl (fun g dy =>
      foldl (fun g dz => explodeCell blast spark x y z dx dy dz g)
            g (seqZ (-4) 9))
      g (seqZ (-4) 9))
    g (seqZ (-4) 9).

(** The callback of [prev.forEach] in the TNT pass of [gameLoop]: the
    entity pushed to [updated] if any, and the game after it. *)
Definition tickTNT (blast : Z -> Z -> Z -> Q) (spark : Z -> Z -> Z -> Q * Q)
    (tnt : TNTEntity) (g : Game) : option TNTEntity * Game :=
  let fuse := tnt_fuse tnt - 1 in
  if fuse <=? 0 then
    (None, explodeTNT blast spark (tnt_x tnt) (tnt_y tnt) (tnt_z tnt) g)
  else
    let velY := (tnt_velY tnt - 0.02)%Q in
    let x := (tnt_x tnt + tnt_velX tnt)%Q in
    let y := (tnt_y tnt + velY)%Q in
    let z := (tnt_z tnt + tnt_velZ tnt)%Q in
    let '(block, w) :=
      getBlock (Qfloor x) (Qfloor (y - 0.5)) (Qfloor z) (world g) in
    if negb (bool_decide (type block = air)) then
      (Some (mkTNT x (inject_Z (Qfloor y) + 0.5) z
                   (tnt_velX tnt * 0.8) 0 (tnt_velZ tnt * 0.8) fuse),
       withWorld w g)
    else
      (Some (mkTNT x y z (tnt_velX tnt) velY (tnt_velZ tnt) fuse),
       withWorld w g).

(** ** Pick ray *)

Definition isSolid (block : Block) : bool :=
  negb (bool_decide (type block = air)) && negb (bool_decide (type block = water)).

(** The loop of [raycast] over the steps [i]. *)
Fixpoint raycastLoop (p : Player) (dirX dirY dirZ : Q) (steps : list Z)
    (world : gmap (Z * Z) Chunk) : option Hit * gmap (Z * Z) Chunk :=
  match steps with
  | [] => (None, world)
  | i :: steps =>
    let step := 0.1%Q in
    let dist := (inject_Z i * step)%Q in
    let x := Qfloor (player_x p + dirX * dist) in
    let y := Qfloor (player_y p + dirY * dist) in
    let z := Qfloor (player_z p + dirZ * dist) in
    let '(block, world) := getBlock x y z world in
    if isSolid block then
      let prevX := Qfloor (player_x p + dirX * (dist - step)) in
      let prevY := Qfloor (player_y p + dirY * (dist - step)) in
      let prevZ := Qfloor (player_z p + dirZ * (dist - step)) in
      let face :=
        if negb (prevX =? x) then (if Qltb 0 dirX then 1%nat else 2%nat)
        else if negb (prevY =? y) then (if Qltb 0 dirY then 3%nat else 4%nat)
        else if negb (prevZ =? z) then (if Qltb 0 dirZ then 5%nat else 6%nat)
        else 0%nat in
      (Some (mkHit x y z face), world)
    else raycastLoop p dirX dirY dirZ steps world
  end.

Definition viewDirection (p : Player) : Q * Q * Q :=
  (Math_cos (angleY p) * Math_cos (angleX p),
   - Math_sin (angleY p),
   Math_cos (angleY p) * Math_sin (angleX p))%Q.

(** [raycast(maxDist)]; the loop runs over the integers [i] from 0 with
    [i < maxDist / step]. *)
Definition raycast (maxDist : Q) (g : Game) : option Hit * Game :=
  let step := 0.1%Q in
  let '(dirX, dirY, dirZ) := viewDirection (player g) in
  let '(hit, w) :=
    raycastLoop (player g) dirX dirY dirZ (seqZ 0 (Qceiling (maxDist / step)))
                (world g) in
  (hit, withWorld w g).

(** ** Breaking and placing *)

(** The inventory update of [breakBlock] in survival mode: the first slot of
    the kind with fewer than 64 items gains one, else the first empty slot
    takes the block. *)
Definition pickUp (ty : BlockType) (inventory : list InventorySlot)
  : list InventorySlot :=
  match list_find (fun s => slot_type s = Some ty /\ count s < 64) inventory with
  | Some (i, _) =>
    alter (fun s => mkSlot (slot_type s) (count s + 1)) i inventory
  | None =>
    match list_find (fun s => slot_type s = None) inventory with
    | Some (i, _) => alter (fun _ => mkSlot (Some ty) 1) i inventory
    | None => inventory
    end
  end.

(** [breakBlock()]; the two draws are those of [igniteTNT] when the target
    is TNT. *)
Definition breakBlock (draw1 draw2 : Q) (g : Game) : Game :=
  let '(hit, g) := raycast 5 g in
  match hit with
  | Some hit =>
    let '(block, w) := getBlock (hit_x hit) (hit_y hit) (hit_z hit) (world g) in
    let g := withWorld w g in
    if decide (type block = tnt) then
      igniteTNT draw1 draw2 (hit_x hit) (hit_y hit) (hit_z hit) g
    else
      let g :=
        withWorld (setBlock (hit_x hit) (hit_y hit) (hit_z hit) (mkBlock air) (world g)) g in
      match mode (player g) with
      | survival => withInventory (pickUp (type block) (inventory g)) g
      | creative => g
      end
  | None => g
  end.

Definition faceOffsets : list (Z * Z * Z) :=
  [(0, 0, 0); (1, 0, 0); (-1, 0, 0); (0, 1, 0); (0, -1, 0); (0, 0, 1); (0, 0, -1)].

(** The inventory update of [placeBlock] in survival mode. *)
Definition takeOne (slot : InventorySlot) : InventorySlot :=
  let count := count slot - 1 in
  mkSlot (if count =? 0 then None else slot_type slot) count.

(** [placeBlock()].  When the ray hits and [player.selectedSlot] is no index
    of [inventory], the source stops with a [TypeError]; the game is then as
    the ray left it, which is what the model returns.  The face of a hit is
    one of 0 to 6 (lemma [raycast_spec]), an index of [faceOffsets]. *)
Definition placeBlock (g : Game) : Game :=
  let '(hit, g) := raycast 5 g in
  let p := player g in
  match hit, inventory g !! selectedSlot p with
  | Some hit, Some slot =>
    match slot_type slot with
    | Some ty =>
      if 0 <? count slot then
        match faceOffsets !! face hit with
        | Some (ox, oy, oz) =>
          let newX := hit_x hit + ox in
          let newY := hit_y hit + oy in
          let newZ := hit_z hit + oz in
          let minX := Qfloor (player_x p - 0.3) in
          let maxX := Qfloor (player_x p + 0.3) in
          let minY := Qfloor (player_y p - 1.8) in
          let maxY := Qfloor (player_y p + 0.2) in
          let minZ := Qfloor (player_z p - 0.3) in
          let maxZ := Qfloor (player_z p + 0.3) in
          if (newX <? minX) || (maxX <? newX) ||
             (newY <? minY) || (maxY <? newY) ||
             (newZ <? minZ) || (maxZ <? newZ)
          then
            let g := withWorld (setBlock newX newY newZ (mkBlock ty) (world g)) g in
            match mode p with
            | survival =>
              withInventory (alter takeOne (selectedSlot p) (inventory g)) g
            | creative => g
            end
          else g
        | None => g
        end
      else g
    | None => g
    end
  | _, _ => g
  end.

(** ** The inventory at the start of a game *)

Definition ALL_BLOCKS : list BlockType :=
  [grass; dirt; stone; wood; planks; leaves; sand; cobblestone; glass; brick;
   water; tnt].

(** [startInventory] of [startGame(mode)]: 36 empty slots, and in creative
    mode one full slot for each of [ALL_BLOCKS] over the first of them. *)
Definition startInventory (m : PlayerMode) : list InventorySlot :=
  let startInventory := replicate 36 (mkSlot None 0) in
  match m with
  | creative =>
    foldl (fun inv '(index, blockType) =>
             if (index <? 36)%nat then <[index := mkSlot (Some blockType) 64]> inv
             else inv)
          startInventory (imap pair ALL_BLOCKS)
  | survival => startInventory
  end.

(** ** Specification vocabulary *)

(** Every stored chunk has the extent 16 x 64 x 16.  This holds of the
    empty map and is kept by every operation. *)
Definition world_wf (world : gmap (Z * Z) Chunk) : Prop :=
  map_Forall (fun _ c => chunk_wf c) world.

(** The chunk stored under a key, or else the one lazy generation stores
    there at the first access. *)
Definition chunkAt (world : gmap (Z * Z) Chunk) (key : Z * Z) : Chunk :=
  default (generateTerrain key.1 key.2) (world !! key).

(** The world after the lazy generation of the chunk under [key]. *)
Definition ensureChunk (key : Z * Z) (world : gmap (Z * Z) Chunk)
  : gmap (Z * Z) Chunk :=
  match world !! key with
  | Some _ => world
  | None => <[key := generateTerrain key.1 key.2]> world
  end.

(** What a read of the voxel [(x, y, z)] returns. *)
Definition blockAt (world : gmap (Z * Z) Chunk) (x y z : Z) : Block :=
  (getBlock x y z world).1.

(** [world'] is [world] with some more chunks generated lazily: every chunk
    of [world] is kept as it is, and every key holds, or will get, the same
    chunk in both. *)
Definition lazyExtension (world world' : gmap (Z * Z) Chunk) : Prop :=
  world ⊆ world' /\ forall key, chunkAt world' key = chunkAt world key.

(** The entity that [igniteTNT(x, y, z)] appends. *)
Definition ignited (draws : Q * Q) (x y z : Z) : TNTEntity :=
  mkTNT (inject_Z x + 0.5) (inject_Z y + 0.5) (inject_Z z + 0.5)
        ((draws.1 - 0.5) * 0.02) 0.2 ((draws.2 - 0.5) * 0.02) 80.

(** What an explosion leaves of the block [b] that it finds at the offset
    [(dx, dy, dz)] from the voxel of its centre. *)
Definition blastResult (blast : Z -> Z -> Z -> Q) (dx dy dz : Z) (b : Block) : Block :=
  let dist2 := dx * dx + dy * dy + dz * dz in
  if sqrt_le dist2 4 then
    if decide (type b = tnt) then mkBlock air
    else if negb (bool_decide (type b = air)) && random_exceeds (blast dx dy dz) dist2 4
         then mkBlock air
         else b
  else b.

(** The offsets the three loops of [explodeTNT] run over, in their order. *)
Definition blastOffsets : list (Z * Z * Z) :=
  dx ← seqZ (-4) 9; dy ← seqZ (-4) 9; dz ← seqZ (-4) 9; [(dx, dy, dz)].

(** The invariant of an inventory slot: the kind is [null] exactly when the
    count is 0, and the count lies in [0,64]. *)
Definition slot_ok (s : InventorySlot) : Prop :=
  (slot_type s = None <-> count s = 0) /\ 0 <= count s <= 64.

Definition inventory_ok (inventory : list InventorySlot) : Prop :=
  Forall slot_ok inventory.

(** What happens to the game between its start and some later moment, as far
    as the inventory is concerned: the player breaks, the player places, and
    the rest of the program (the game loop, the input handlers) moves the
    player and changes the world and the entities. *)
Inductive Action :=
  | Break (draw1 draw2 : Q)
  | Place
  | Elsewhere (world : gmap (Z * Z) Chunk) (tntEntities : list TNTEntity) (player : Player).

Definition step (a : Action) (g : Game) : Game :=
  match a with
  | Break draw1 draw2 => breakBlock draw1 draw2 g
  | Place => placeBlock g
  | Elsewhere w ts p => mkGame w ts (inventory g) p
  end.

Definition run (actions : list Action) (g : Game) : Game :=
  foldl (fun g a => step a g) g actions.

End Model.

(** ** A concrete host

    Closed examples need some host.  This one takes sine and cosine from the
    rational parametrisation of the unit circle, so that its [Math_cos] is 1
    and its [Math_sin] is 0 at the angle 0, and never grows a tree. *)

Definition circle_sin (a : Q) : Q := (2 * a / (1 + a * a))%Q.
Definition circle_cos (a : Q) : Q := ((1 - a * a) / (1 + a * a))%Q.

Lemma Qsquare_nonneg (q : Q) : (0 <= q * q)%Q.
Proof. unfold Qle, Qmult; simpl. nia. Qed.

Lemma circle_sin_range a : (-1 <= circle_sin a /\ circle_sin a <= 1)%Q.
Proof.
  unfold circle_sin.
  assert (Hp : (0 < 1 + a * a)%Q) by (pose proof (Qsquare_nonneg a); lra).
  split.
  - apply Qle_shift_div_l; [exact Hp|].
    pose proof (Qsquare_nonneg (a + 1)). lra.
  - apply Qle_shift_div_r; [exact Hp|].
    pose proof (Qsquare_nonneg (a - 1)). lra.
Qed.

Lemma circle_cos_range a : (-1 <= circle_cos a /\ circle_cos a <= 1)%Q.
Proof.
  unfold circle_cos.
  assert (Hp : (0 < 1 + a * a)%Q) by (pose proof (Qsquare_nonneg a); lra).
  split.
  - apply Qle_shift_div_l; [exact Hp|]. pose proof (Qsquare_nonneg a). lra.
  - apply Qle_shift_div_r; [exact Hp|]. pose proof (Qsquare_nonneg a). lra.
Qed.

Definition sample_host : Host :=
  {| Math_sin := circle_sin;
     Math_cos := circle_cos;
     Math_random_tree := fun _ _ _ _ => 0.5%Q;
     Math_sin_range := circle_sin_range;
     Math_cos_range := circle_cos_range |}.

(** ** Example games

    The games the closed examples run on, all over [sample_host].  The
    player stands at eye height 45 above the terrain, whose surface lies
    between 21 and 43, and looks along the positive x axis. *)

Definition standingPlayer (x : Q) (slot : nat) (m : PlayerMode) : Player :=
  mkPlayer x 45 8.5 0 0 0 slot false m.

(** A block of tnt one voxel ahead of the player, an empty inventory. *)
Definition tntGame : Game :=
  mkGame (setBlock (H := sample_host) 9 45 8 (mkBlock tnt) ∅) []
         (replicate 36 (mkSlot None 0)) (standingPlayer 8 0 survival).

(** A block of stone right ahead of the player: the second sample of the
    ray, at the distance 0.1, is inside it. *)
Definition stoneAheadGame : Game :=
  mkGame (setBlock (H := sample_host) 9 45 8 (mkBlock stone) ∅) []
         [mkSlot (Some planks) 3] (standingPlayer 8.95 0 survival).

(** The same block of stone, and an inventory of 36 full slots of dirt. *)
Definition fullInventoryGame : Game :=
  mkGame (setBlock (H := sample_host) 9 45 8 (mkBlock stone) ∅) []
         (replicate 36 (mkSlot (Some dirt) 64)) (standingPlayer 8 0 survival).

(** The player buried in the stone at height 10, on a chunk map that is
    still empty. *)
Definition buriedGame : Game :=
  mkGame ∅ [] [mkSlot (Some dirt) 5]
         (mkPlayer 8.5 10.5 8.5 0 0 0 0 false survival).

(** A pool of water one voxel below a falling entity. *)
Definition waterGame : Game :=
  mkGame (setBlock (H := sample_host) 8 44 8 (mkBlock water) ∅) [] []
         (standingPlayer 8 0 survival).

Definition fallingTNT : TNTEntity := mkTNT 8.5 45.3 8.5 0.01 0 0 80.

(** Draws for the examples: every destruction test draws 0.75, every
    ignition draws 0.5 twice. *)
Definition sampleBlast : Z -> Z -> Z -> Q := fun _ _ _ => 0.75%Q.
Definition sampleSpark : Z -> Z -> Z -> Q * Q := fun _ _ _ => (0.5%Q, 0.5%Q).


(** * Further operations

    The rest of the component that the statements below are about. *)

Section Session.
Context `{Host}.

(** [startGame(mode)]: the chunk map cleared, no entity, the start
    inventory, the player at the spawn point.  ([gameMode], the screen
    shown, is no part of [Game].) *)
Definition startGame (m : PlayerMode) : Game :=
  mkGame ∅ [] (startInventory m) (mkPlayer 8 45 8 0 0 0 0 false m).

(** The click on a block of the creative menu: the first slot that is empty
    or holds the kind becomes a full slot of the kind. *)
Definition giveBlock (blockType : BlockType) (inventory : list InventorySlot)
  : list InventorySlot :=
  match list_find (fun s => slot_type s = None \/ slot_type s = Some blockType)
                  inventory with
  | Some (i, _) => alter (fun _ => mkSlot (Some blockType) 64) i inventory
  | None => inventory
  end.

(** The number of items of a kind that an inventory holds. *)
Definition countOf (ty : BlockType) (inventory : list InventorySlot) : Z :=
  foldr (fun s n => (if decide (slot_type s = Some ty) then count s else 0) + n)
        0 inventory.

(** The voxel of the sample of the pick ray at step [i], and the face the
    loop of [raycast] computes when it stops there. *)
Definition raySample (p : Player) (i : Z) : Z * Z * Z :=
  let '(dirX, dirY, dirZ) := viewDirection p in
  (Qfloor (player_x p + dirX * (inject_Z i * 0.1)),
   Qfloor (player_y p + dirY * (inject_Z i * 0.1)),
   Qfloor (player_z p + dirZ * (inject_Z i * 0.1))).

(** The floored box of the player in [placeBlock]. *)
Definition inPlayerBox (p : Player) (x y z : Z) : Prop :=
  Qfloor (player_x p - 0.3) <= x <= Qfloor (player_x p + 0.3) /\
  Qfloor (player_y p - 1.8) <= y <= Qfloor (player_y p + 0.2) /\
  Qfloor (player_z p - 0.3) <= z <= Qfloor (player_z p + 0.3).

(** One entity over successive frames: each frame brings its draws and the
    game the TNT pass finds, and runs [tickTNT] on the entity as the frame
    before left it, until the entity is gone. *)
Fixpoint tickThrough
    (frames : list ((Z -> Z -> Z -> Q) * (Z -> Z -> Z -> Q * Q) * Game))
    (entity : TNTEntity) : option TNTEntity :=
  match frames with
  | [] => Some entity
  | (blast, spark, g) :: frames =>
    match (tickTNT blast spark entity g).1 with
    | Some entity => tickThrough frames entity
    | None => None
    end
  end.

End Session.

(** ** The player in the game loop *)

(** [Math.PI], the double nearest to the number pi. *)
Definition Math_PI : Q := 884279719003555 # 281474976710656.

(** [Math.max(-Math.PI / 2, Math.min(Math.PI / 2, a))] *)
Definition clampPitch (a : Q) : Q := Qmax (- Math_PI / 2) (Qmin (Math_PI / 2) a).

(** A joystick of the touch controls. *)
Record Joystick := mkJoystick { joy_x : Q; joy_y : Q }.

(** What the game loop reads of the input state: the keys held, whether the
    touch controls are on, and the two joysticks. *)
Record Controls := mkControls {
  keys : gset string;
  isMobile : bool;
  joystickPos : Joystick;
  lookJoystick : Joystick;
}.

(** [keys.has(key)] *)
Definition has (key : string) (c : Controls) : bool := bool_decide (key ∈ keys c).

(** [handleMouseMove], when the game is played with the pointer locked. *)
Definition handleMouseMove (movementX movementY : Q) (prev : Player) : Player :=
  mkPlayer (player_x prev) (player_y prev) (player_z prev) (velY prev)
           (angleX prev + movementX * 0.002)
           (clampPitch (angleY prev - movementY * 0.002))
           (selectedSlot prev) (onGround prev) (mode prev).

Section Movement.
Context `{Host}.

(** The twelve points of the player's box that [checkCollision] samples. *)
Definition collisionChecks (x y z : Q) : list (Q * Q * Q) :=
  [ (x - 0.3, y - 1.8, z - 0.3); (x + 0.3, y - 1.8, z - 0.3);
    (x - 0.3, y - 1.8, z + 0.3); (x + 0.3, y - 1.8, z + 0.3);
    (x - 0.3, y - 0.9, z - 0.3); (x + 0.3, y - 0.9, z - 0.3);
    (x - 0.3, y - 0.9, z + 0.3); (x + 0.3, y - 0.9, z + 0.3);
    (x - 0.3, y, z - 0.3); (x + 0.3, y, z - 0.3);
    (x - 0.3, y, z + 0.3); (x + 0.3, y, z + 0.3) ]%Q.

(** The loop of [checkCollision] over its points. *)
Fixpoint checkCollisionLoop (checks : list (Q * Q * Q)) (world : gmap (Z * Z) Chunk)
  : bool * gmap (Z * Z) Chunk :=
  match checks with
  | [] => (false, world)
  | (cx, cy, cz) :: checks =>
    let '(block, world) := getBlock (Qfloor cx) (Qfloor cy) (Qfloor cz) world in
    if isSolid block then (true, world) else checkCollisionLoop checks world
  end.

Definition checkCollision (x y z : Q) (world : gmap (Z * Z) Chunk)
  : bool * gmap (Z * Z) Chunk :=
  checkCollisionLoop (collisionChecks x y z) world.

(** The first part of the player update: the new angles and the position
    the player tries to move to, [(newX, newZ, newAngleX, newAngleY)]. *)
Definition steer (c : Controls) (prev : Player) : Q * Q * Q * Q :=
  if isMobile c then
    let newAngleX := (angleX prev + joy_x (lookJoystick c) * 0.03)%Q in
    let newAngleY := clampPitch (angleY prev - joy_y (lookJoystick c) * 0.03) in
    let moveSpeed := 0.1%Q in
    ((player_x prev + Math_cos newAngleX * moveSpeed * joy_y (joystickPos c))%Q,
     (player_z prev + Math_sin newAngleX * moveSpeed * joy_y (joystickPos c))%Q,
     newAngleX, newAngleY)
  else
    let baseSpeed := 0.1%Q in
    let moveSpeed := if has "shift" c then (baseSpeed * 1.5)%Q else baseSpeed in
    let newX := player_x prev in
    let newZ := player_z prev in
    let '(newX, newZ) :=
      if has "w" c
      then ((newX + Math_cos (angleX prev) * moveSpeed)%Q,
            (newZ + Math_sin (angleX prev) * moveSpeed)%Q)
      else (newX, newZ) in
    let '(newX, newZ) :=
      if has "s" c
      then ((newX - Math_cos (angleX prev) * moveSpeed)%Q,
            (newZ - Math_sin (angleX prev) * moveSpeed)%Q)
      else (newX, newZ) in
    let '(newX, newZ) :=
      if has "a" c
      then ((newX + Math_cos (angleX prev - Math_PI / 2) * moveSpeed)%Q,
            (newZ + Math_sin (angleX prev - Math_PI / 2) * moveSpeed)%Q)
      else (newX, newZ) in
    let '(newX, newZ) :=
      if has "d" c
      then ((newX + Math_cos (angleX prev + Math_PI / 2) * moveSpeed)%Q,
            (newZ + Math_sin (angleX prev + Math_PI / 2) * moveSpeed)%Q)
      else (newX, newZ) in
    (newX, newZ, angleX prev, angleY prev).

(** The player update of [gameLoop], the function passed to [setPlayer],
    with the chunk map that its calls of [getBlock] leave. *)
Definition updatePlayer (c : Controls) (g : Game) : Game :=
  let prev := player g in
  let '(newX, newZ, newAngleX, newAngleY) := steer c prev in
  let newY := player_y prev in
  let newVelY := velY prev in
  let '(blockedX, w) := checkCollision newX newY (player_z prev) (world g) in
  let newX := if blockedX then player_x prev else newX in
  let '(blockedZ, w) := checkCollision (player_x prev) newY newZ w in
  let newZ := if blockedZ then player_z prev else newZ in
  let '(newY, newVelY, w) :=
    match mode prev with
    | creative =>
      let newY := if has " " c then (newY + 0.1)%Q else newY in
      let newY := if has "shift" c then (newY - 0.1)%Q else newY in
      (newY, 0%Q, w)
    | survival =>
      let newVelY := (newVelY - 0.02)%Q in
      let newY := (newY + newVelY)%Q in
      let '(blocked, w) := checkCollision newX newY newZ w in
      if blocked then
        if Qltb newVelY 0 then
          ((inject_Z (Qfloor newY) + 1)%Q,
           if has " " c && negb (isMobile c) then 0.15%Q else 0%Q, w)
        else (inject_Z (Qceiling newY), 0%Q, w)
      else (newY, newVelY, w)
    end in
  mkGame w (tntEntities g) (inventory g)
         (mkPlayer newX newY newZ newVelY newAngleX newAngleY
                   (selectedSlot prev) (onGround prev) (mode prev)).

(** What the player does to the game: a frame of the game loop updates the
    player, the mouse turns the view, a left click breaks, a right click
    places, and a click on a block of the creative menu fills a slot. *)
Inductive Event :=
  | Frame (c : Controls)
  | MouseMove (movementX movementY : Q)
  | LeftClick (draw1 draw2 : Q)
  | RightClick
  | MenuClick (blockType : BlockType).

Definition handle (e : Event) (g : Game) : Game :=
  match e with
  | Frame c => updatePlayer c g
  | MouseMove movementX movementY =>
    mkGame (world g) (tntEntities g) (inventory g)
           (handleMouseMove movementX movementY (player g))
  | LeftClick draw1 draw2 => breakBlock draw1 draw2 g
  | RightClick => placeBlock g
  | MenuClick blockType => withInventory (giveBlock blockType (inventory g)) g
  end.

Definition play (events : list Event) (g : Game) : Game :=
  foldl (fun g e => handle e g) g events.

(** The pitch of the view is between a quarter turn down and a quarter turn
    up. *)
Definition pitch_ok (p : Player) : Prop :=
  (- Math_PI / 2 <= angleY p /\ angleY p <= Math_PI / 2)%Q.

End Movement.

(** ** Further example games *)

(** The block of stone one voxel ahead, and an inventory with a full slot of
    dirt, a slot of 12 stone and an empty slot. *)
Definition quarryGame : Game :=
  mkGame (setBlock (H := sample_host) 9 45 8 (mkBlock stone) ∅) []
         [mkSlot (Some dirt) 64; mkSlot (Some stone) 12; mkSlot None 0]
         (standingPlayer 8 0 survival).


(** The space key held, on the desktop. *)
Definition flightControls : Controls :=
  mkControls {[ " " ]} false (mkJoystick 0 0) (mkJoystick 0 0).

(** Two blocks of stone around an entity that explodes at
    [(8.9, 45.9, 8.5)], and a draw of 0.99 for every destruction test. *)
Definition blastGame : Game :=
  mkGame (setBlock (H := sample_host) 4 45 8 (mkBlock stone)
            (setBlock (H := sample_host) 11 48 8 (mkBlock stone) ∅)) []
         [] (standingPlayer 8 0 survival).

Definition sureBlast : Z -> Z -> Z -> Q := fun _ _ _ => 0.99%Q.


Definition roofGame : Game :=
  mkGame (setBlock (H := sample_host) 8 46 8 (mkBlock stone) ∅) [] []
         (mkPlayer 8.5 45.95 8.5 0 0 0 0 false creative).
(** * Lemmas *)

Lemma Qltb_lt (a b : Q) : Qltb a b = true <-> (a < b)%Q.
Proof.
  unfold Qltb. rewrite negb_true_iff. split.
  - intros H. apply Qnot_le_lt. intros Hle.
    apply Qle_bool_iff in Hle. congruence.
  - intros H. destruct (Qle_bool b a) eqn:E; [|reflexivity].
    apply Qle_bool_iff in E. exfalso. apply (Qlt_not_le _ _ H E).
Qed.

Lemma chunkCoord_div (x : Z) : chunkCoord x = x / 16.
Proof.
  unfold chunkCoord, CHUNK_SIZE, Qfloor, Qdiv, Qmult, Qinv, inject_Z; simpl.
  rewrite Z.mul_1_r. reflexivity.
Qed.

Lemma localIndex_mod (x : Z) : localIndex x = x mod 16.
Proof.
  unfold localIndex, CHUNK_SIZE.
  pose proof (Z.rem_bound_abs x 16 ltac:(lia)) as Hb.
  rewrite Z.rem_mod_nonneg by lia.
  replace (Z.rem x 16 + 16) with (Z.rem x 16 + 1 * 16) by lia.
  rewrite Z.mod_add by lia.
  pose proof (Z.quot_rem' x 16) as Hq.
  rewrite Hq at 2.
  rewrite Z.add_comm, (Z.mul_comm 16), Z.mod_add by lia.
  reflexivity.
Qed.

(** ** Chunk lemmas *)

Lemma chunk_wf_empty : chunk_wf emptyChunk.
Proof.
  split; [reflexivity|].
  apply Forall_replicate. split; [reflexivity|].
  apply Forall_replicate. reflexivity.
Qed.

Lemma chunkWrite_wf x y z b c : chunk_wf c -> chunk_wf (chunkWrite x y z b c).
Proof.
  intros [Hl Hc]. unfold chunkWrite. case_bool_decide; [|by split].
  split; [by rewrite length_alter|].
  apply Forall_alter; [exact Hc|].
  intros col _ [Hcl Hrows]. cbn beta. split; [by rewrite length_alter|].
  apply Forall_alter; [exact Hrows|].
  intros row _ Hr. by rewrite length_insert.
Qed.

Lemma chunkRead_lookup x y z c :
  chunk_wf c -> 0 <= x < 16 -> 0 <= y < 64 -> 0 <= z < 16 ->
  exists col row,
    c !! Z.to_nat x = Some col /\ col !! Z.to_nat y = Some row /\
    row !! Z.to_nat z = Some (chunkRead x y z c).
Proof.
  intros [Hl Hc] Hx Hy Hz.
  destruct (lookup_lt_is_Some_2 c (Z.to_nat x)) as [col Hcol]; [lia|].
  pose proof (proj1 (Forall_lookup _ _) Hc _ _ Hcol) as [Hcl Hrows].
  destruct (lookup_lt_is_Some_2 col (Z.to_nat y)) as [row Hrow]; [lia|].
  pose proof (proj1 (Forall_lookup _ _) Hrows _ _ Hrow) as Hrl.
  cbn beta in Hrl.
  destruct (lookup_lt_is_Some_2 row (Z.to_nat z)) as [b Hb]; [lia|].
  exists col, row. unfold chunkRead. rewrite Hcol; simpl. rewrite Hrow; simpl.
  rewrite Hb. done.
Qed.

Lemma chunkRead_write_eq x y z b c :
  chunk_wf c -> 0 <= x < 16 -> 0 <= y < 64 -> 0 <= z < 16 ->
  chunkRead x y z (chunkWrite x y z b c) = b.
Proof.
  intros Hwf Hx Hy Hz.
  destruct (chunkRead_lookup x y z c Hwf Hx Hy Hz) as (col & row & Hcol & Hrow & Hb).
  unfold chunkWrite. rewrite bool_decide_eq_true_2 by lia.
  unfold chunkRead. rewrite list_lookup_alter_eq, Hcol; simpl.
  rewrite list_lookup_alter_eq, Hrow; simpl.
  rewrite list_lookup_insert_eq; [done|].
  by apply lookup_lt_Some in Hb.
Qed.

Lemma chunkRead_write_ne x y z x' y' z' b c :
  0 <= x' -> 0 <= y' -> 0 <= z' ->
  (x', y', z') <> (x, y, z) ->
  chunkRead x' y' z' (chunkWrite x y z b c) = chunkRead x' y' z' c.
Proof.
  intros Hx' Hy' Hz' Hne.
  unfold chunkWrite. case_bool_decide as Hnn; [|done].
  unfold chunkRead.
  destruct (decide (x' = x)) as [->|Hxne].
  - rewrite list_lookup_alter_eq.
    destruct (c !! Z.to_nat x) as [col|]; simpl; [|done].
    destruct (decide (y' = y)) as [->|Hyne].
    + rewrite list_lookup_alter_eq.
      destruct (col !! Z.to_nat y) as [row|]; simpl; [|done].
      rewrite list_lookup_insert_ne; [done|].
      intros E. apply Hne. f_equal. lia.
    + rewrite list_lookup_alter_ne by lia. done.
  - rewrite list_lookup_alter_ne by lia. done.
Qed.

Lemma foldl_wf {A} (f : Chunk -> A -> Chunk) (l : list A) (c : Chunk) :
  (forall c a, chunk_wf c -> chunk_wf (f c a)) ->
  chunk_wf c -> chunk_wf (foldl f c l).
Proof.
  intros Hf. revert c. induction l as [|a l IH]; intros c Hc; simpl; [done|].
  apply IH. by apply Hf.
Qed.

Section TerrainLemmas.
Context `{Host}.

(** The terrain height stays between 21 and 43, so every column loop,
    trunk, canopy and pool of [generateTerrain] writes inside the chunk. *)
Lemma terrainHeight_range worldX worldZ :
  21 <= terrainHeight worldX worldZ <= 43.
Proof.
  unfold terrainHeight.
  set (a1 := (inject_Z worldX * 0.05)%Q). set (b1 := (inject_Z worldZ * 0.05)%Q).
  set (a2 := (inject_Z worldX * 0.02)%Q). set (b2 := (inject_Z worldZ * 0.02)%Q).
  pose proof (Math_sin_range a1) as [Hs1 Hs1'].
  pose proof (Math_cos_range b1) as [Hc1 Hc1'].
  pose proof (Math_sin_range a2) as [Hs2 Hs2'].
  pose proof (Math_cos_range b2) as [Hc2 Hc2'].
  set (s1 := Math_sin a1) in *. set (c1 := Math_cos b1) in *.
  set (s2 := Math_sin a2) in *. set (c2 := Math_cos b2) in *.
  assert (Hp1 : (-1 <= s1 * c1 /\ s1 * c1 <= 1)%Q) by (split; nra).
  assert (Hp2 : (-1 <= s2 * c2 /\ s2 * c2 <= 1)%Q) by (split; nra).
  destruct Hp1 as [Hp1 Hp1'], Hp2 as [Hp2 Hp2'].
  split.
  - change 21 with (Qfloor (inject_Z 21)) at 1.
    apply Qfloor_resp_le. change (inject_Z 21) with (21%Q). lra.
  - change 43 with (Qfloor (inject_Z 43)).
    apply Qfloor_resp_le. change (inject_Z 43) with (43%Q). lra.
Qed.

Lemma generateColumn_wf cx cz x z c : chunk_wf c -> chunk_wf (generateColumn cx cz x z c).
Proof.
  intros Hc. unfold generateColumn, placeLeaves. cbv zeta.
  repeat first
    [ assumption
    | apply chunkWrite_wf
    | apply foldl_wf; [intros ? ? ?|]
    | match goal with |- chunk_wf (if ?b then _ else _) => destruct b end ].
Qed.

Lemma generateTerrain_wf cx cz : chunk_wf (generateTerrain cx cz).
Proof.
  unfold generateTerrain.
  apply foldl_wf; [|apply chunk_wf_empty].
  intros c x Hc. apply foldl_wf; [|done].
  intros c' z Hc'. by apply generateColumn_wf.
Qed.

End TerrainLemmas.

(** ** World store lemmas *)

#[global] Opaque generateTerrain.

Section WorldStore.
Context `{Host}.

Lemma ensureChunk_lookup key world :
  ensureChunk key world !! key = Some (chunkAt world key).
Proof.
  unfold ensureChunk, chunkAt.
  destruct (world !! key) as [c|] eqn:E; simpl; [done|].
  by rewrite lookup_insert_eq.
Qed.

Lemma ensureChunk_lookup_ne key k world :
  k <> key -> ensureChunk key world !! k = world !! k.
Proof.
  intros Hne. unfold ensureChunk.
  destruct (world !! key); [done|]. by rewrite lookup_insert_ne.
Qed.

Lemma chunkAt_ensureChunk key k world :
  chunkAt (ensureChunk key world) k = chunkAt world k.
Proof.
  unfold chunkAt at 1. destruct (decide (k = key)) as [->|Hne].
  - by rewrite ensureChunk_lookup.
  - by rewrite ensureChunk_lookup_ne.
Qed.

Lemma ensureChunk_subseteq key world : world ⊆ ensureChunk key world.
Proof.
  unfold ensureChunk. destruct (world !! key) eqn:E; [done|].
  by apply insert_subseteq.
Qed.

Lemma getBlock_unfold x y z world :
  getBlock x y z world =
  (if (y <? 0) || (WORLD_HEIGHT <=? y) then mkBlock air
   else chunkRead (localIndex x) y (localIndex z)
          (chunkAt world (chunkCoord x, chunkCoord z)),
   ensureChunk (chunkCoord x, chunkCoord z) world).
Proof.
  unfold getBlock, getChunkKey.
  change (match world !! (chunkCoord x, chunkCoord z) with
          | Some _ => world
          | None => <[(chunkCoord x, chunkCoord z) := generateTerrain (chunkCoord x) (chunkCoord z)]> world
          end) with (ensureChunk (chunkCoord x, chunkCoord z) world).
  cbv zeta. rewrite ensureChunk_lookup. simpl.
  by destruct ((y <? 0) || (WORLD_HEIGHT <=? y)).
Qed.

Lemma setBlock_unfold x y z b world :
  setBlock x y z b world =
  if (0 <=? y) && (y <? WORLD_HEIGHT)
  then <[(chunkCoord x, chunkCoord z) :=
           chunkWrite (localIndex x) y (localIndex z) b
             (chunkAt world (chunkCoord x, chunkCoord z))]> world
  else ensureChunk (chunkCoord x, chunkCoord z) world.
Proof.
  unfold setBlock, getChunkKey.
  change (match world !! (chunkCoord x, chunkCoord z) with
          | Some _ => world
          | None => <[(chunkCoord x, chunkCoord z) := generateTerrain (chunkCoord x) (chunkCoord z)]> world
          end) with (ensureChunk (chunkCoord x, chunkCoord z) world).
  cbv zeta. rewrite ensureChunk_lookup. simpl.
  destruct ((0 <=? y) && (y <? WORLD_HEIGHT)); [|done].
  unfold ensureChunk. destruct (world !! (chunkCoord x, chunkCoord z)); [done|].
  by rewrite insert_insert_eq.
Qed.

Lemma world_wf_chunkAt world key : world_wf world -> chunk_wf (chunkAt world key).
Proof.
  intros Hwf. unfold chunkAt.
  destruct (world !! key) as [c|] eqn:E; simpl.
  - exact (Hwf _ _ E).
  - apply generateTerrain_wf.
Qed.

Lemma world_wf_ensureChunk key world : world_wf world -> world_wf (ensureChunk key world).
Proof.
  intros Hwf. unfold ensureChunk. destruct (world !! key); [done|].
  apply map_Forall_insert_2; [apply generateTerrain_wf|done].
Qed.

Lemma world_wf_getBlock x y z world : world_wf world -> world_wf (getBlock x y z world).2.
Proof. rewrite getBlock_unfold. simpl. apply world_wf_ensureChunk. Qed.

Lemma world_wf_setBlock x y z b world : world_wf world -> world_wf (setBlock x y z b world).
Proof.
  intros Hwf. rewrite setBlock_unfold.
  destruct ((0 <=? y) && (y <? WORLD_HEIGHT)).
  - apply map_Forall_insert_2; [|done].
    apply chunkWrite_wf. by apply world_wf_chunkAt.
  - by apply world_wf_ensureChunk.
Qed.

Lemma localIndex_range x : 0 <= localIndex x < 16.
Proof. rewrite localIndex_mod. apply Z.mod_pos_bound. lia. Qed.

Lemma chunk_local_eq x : chunkCoord x * 16 + localIndex x = x.
Proof.
  rewrite chunkCoord_div, localIndex_mod.
  pose proof (Z.div_mod x 16 ltac:(lia)). lia.
Qed.

(** What a later read sees: reads do not change it. *)
Lemma getBlock_after_getBlock x y z x' y' z' world :
  (getBlock x y z (getBlock x' y' z' world).2).1 = (getBlock x y z world).1.
Proof.
  rewrite (getBlock_unfold x' y' z'). simpl.
  rewrite !getBlock_unfold. simpl.
  by rewrite chunkAt_ensureChunk.
Qed.

Lemma getBlock_after_setBlock_eq x y z b world :
  world_wf world -> 0 <= y < 64 ->
  (getBlock x y z (setBlock x y z b world)).1 = b.
Proof.
  intros Hwf Hy. rewrite getBlock_unfold, setBlock_unfold. simpl.
  unfold WORLD_HEIGHT.
  replace ((y <? 0) || (64 <=? y)) with false by lia.
  replace ((0 <=? y) && (y <? 64)) with true by lia.
  unfold chunkAt at 1. rewrite lookup_insert_eq. simpl.
  apply chunkRead_write_eq; auto using localIndex_range.
  by apply world_wf_chunkAt.
Qed.

Lemma getBlock_after_setBlock_ne x y z x' y' z' b world :
  (x', y', z') <> (x, y, z) ->
  (getBlock x' y' z' (setBlock x y z b world)).1 = (getBlock x' y' z' world).1.
Proof.
  intros Hne. rewrite !getBlock_unfold, setBlock_unfold. simpl.
  destruct ((y' <? 0) || (WORLD_HEIGHT <=? y')) eqn:Ey'; [done|].
  unfold WORLD_HEIGHT in *.
  destruct ((0 <=? y) && (y <? 64)) eqn:Ey.
  - destruct (decide ((chunkCoord x', chunkCoord z') = (chunkCoord x, chunkCoord z)))
      as [Ek|Ek].
    + rewrite Ek. unfold chunkAt at 1. rewrite lookup_insert_eq. simpl.
      injection Ek as Ex Ez.
      pose proof (localIndex_range x'). pose proof (localIndex_range z').
      apply chunkRead_write_ne; try lia.
      intros E. injection E as E1 E2 E3. apply Hne.
      pose proof (chunk_local_eq x). pose proof (chunk_local_eq x').
      pose proof (chunk_local_eq z). pose proof (chunk_local_eq z').
      f_equal; [f_equal|]; lia.
    + unfold chunkAt. by rewrite lookup_insert_ne.
  - by rewrite chunkAt_ensureChunk.
Qed.

Lemma blockAt_unfold world x y z :
  blockAt world x y z =
  if (y <? 0) || (WORLD_HEIGHT <=? y) then mkBlock air
  else chunkRead (localIndex x) y (localIndex z)
         (chunkAt world (chunkCoord x, chunkCoord z)).
Proof. unfold blockAt. by rewrite getBlock_unfold. Qed.

Lemma getBlock_snd x y z world :
  (getBlock x y z world).2 = ensureChunk (chunkCoord x, chunkCoord z) world.
Proof. by rewrite getBlock_unfold. Qed.

Lemma blockAt_outside world x y z : y < 0 \/ 64 <= y -> blockAt world x y z = mkBlock air.
Proof.
  intros Hy. rewrite blockAt_unfold. unfold WORLD_HEIGHT.
  replace ((y <? 0) || (64 <=? y)) with true by lia. done.
Qed.

Lemma blockAt_not_air_height world x y z :
  type (blockAt world x y z) <> air -> 0 <= y < 64.
Proof.
  intros Hne. destruct (decide (0 <= y < 64)) as [|Hn]; [done|].
  rewrite blockAt_outside in Hne by lia. done.
Qed.

(** *** Lazy extensions *)

Lemma lazyExtension_refl world : lazyExtension world world.
Proof. by split. Qed.

Lemma lazyExtension_trans w1 w2 w3 :
  lazyExtension w1 w2 -> lazyExtension w2 w3 -> lazyExtension w1 w3.
Proof.
  intros [Hs1 Hc1] [Hs2 Hc2]. split.
  - by transitivity w2.
  - intros key. by rewrite Hc2.
Qed.

Lemma lazyExtension_ensureChunk key world : lazyExtension world (ensureChunk key world).
Proof.
  split; [apply ensureChunk_subseteq|].
  intros k. apply chunkAt_ensureChunk.
Qed.

Lemma lazyExtension_getBlock x y z world : lazyExtension world (getBlock x y z world).2.
Proof. rewrite getBlock_snd. apply lazyExtension_ensureChunk. Qed.

Lemma lazyExtension_blockAt w w' x y z :
  lazyExtension w w' -> blockAt w' x y z = blockAt w x y z.
Proof. intros [_ Hc]. rewrite !blockAt_unfold. by rewrite Hc. Qed.

Lemma lazyExtension_wf w w' : lazyExtension w w' -> world_wf w -> world_wf w'.
Proof.
  intros [_ Hc] Hwf key c Hk.
  assert (c = chunkAt w' key) as -> by (unfold chunkAt; by rewrite Hk).
  rewrite Hc. by apply world_wf_chunkAt.
Qed.

Lemma lazyExtension_loaded w w' key :
  lazyExtension w w' -> is_Some (w !! key) -> w' !! key = w !! key.
Proof.
  intros [Hs _] [c Hc]. rewrite Hc.
  eapply lookup_weaken; eauto.
Qed.

Lemma blockAt_setBlock_eq x y z b world :
  world_wf world -> 0 <= y < 64 -> blockAt (setBlock x y z b world) x y z = b.
Proof. apply getBlock_after_setBlock_eq. Qed.

Lemma blockAt_setBlock_ne x y z x' y' z' b world :
  (x', y', z') <> (x, y, z) ->
  blockAt (setBlock x y z b world) x' y' z' = blockAt world x' y' z'.
Proof. apply getBlock_after_setBlock_ne. Qed.

Lemma world_wf_empty : world_wf ∅.
Proof. apply map_Forall_empty. Qed.

(** ** The coordinate wrap (C8) *)

(** C8.  For every integer [x] the local index
    [((x % 16) + 16) % 16] lies in [0,16), and with the chunk coordinate
    [Math.floor(x / 16)] it reconstructs [x]: [chunkX * 16 + localX = x],
    and no other pair of a chunk coordinate and an index in [0,16) does.
    At [x = -1] the index is 15 and the chunk coordinate is -1. *)
Theorem localIndex_chunkCoord_wrap (x : Z) :
  0 <= localIndex x < 16 /\
  chunkCoord x * 16 + localIndex x = x /\
  (forall c l : Z, 0 <= l < 16 /\ c * 16 + l = x -> c = chunkCoord x /\ l = localIndex x) /\
  localIndex (-1) = 15 /\ chunkCoord (-1) = -1.
Proof.
  split; [apply localIndex_range|].
  split; [apply chunk_local_eq|].
  split; [|split; reflexivity].
  intros c l [Hl Hx].
  pose proof (localIndex_range x) as Hr.
  pose proof (chunk_local_eq x) as He.
  lia.
Qed.

(** ** Reads outside the vertical range (C1) *)

(** C1, as the code has it.  For [y] outside [0,64), [getBlock] returns air.
    It resolves, and generates if absent, the chunk of [(x, z)] before it
    looks at [y]: the chunk map is unchanged when that chunk is present, and
    otherwise gains exactly that one generated chunk; no other key changes. *)
Theorem getBlock_outside_height (x y z : Z) (world : gmap (Z * Z) Chunk) :
  y < 0 \/ 64 <= y ->
  let key := getChunkKey (chunkCoord x) (chunkCoord z) in
  let result := getBlock x y z world in
  result.1 = mkBlock air /\
  (is_Some (world !! key) -> result.2 = world) /\
  (world !! key = None ->
     result.2 = <[key := generateTerrain (chunkCoord x) (chunkCoord z)]> world) /\
  (forall k, k <> key -> result.2 !! k = world !! k).
Proof.
  intros Hy key result. subst key result. unfold getChunkKey.
  split; [by apply (blockAt_outside world x y z)|].
  rewrite getBlock_snd. unfold ensureChunk. simpl.
  split; [|split].
  - intros [c ->]. done.
  - intros ->. done.
  - intros k Hk. destruct (world !! (chunkCoord x, chunkCoord z)); [done|].
    by rewrite lookup_insert_ne.
Qed.

(** ** Store then read (C2) *)

(** C2.  For [0 <= y < 64], the read of [(x, y, z)] after
    [setBlock(x, y, z, v)] returns [v]. *)
Theorem setBlock_getBlock_roundtrip (x y z : Z) (v : Block) (world : gmap (Z * Z) Chunk) :
  world_wf world -> 0 <= y < 64 ->
  (getBlock x y z (setBlock x y z v world)).1 = v.
Proof. apply getBlock_after_setBlock_eq. Qed.

End WorldStore.

(** ** The pick ray *)

Section PickRay.
Context `{Host}.

Lemma raycastLoop_cons p dirX dirY dirZ i steps world :
  raycastLoop p dirX dirY dirZ (i :: steps) world =
  let step := 0.1%Q in
  let dist := (inject_Z i * step)%Q in
  let x := Qfloor (player_x p + dirX * dist) in
  let y := Qfloor (player_y p + dirY * dist) in
  let z := Qfloor (player_z p + dirZ * dist) in
  if isSolid (blockAt world x y z) then
    let prevX := Qfloor (player_x p + dirX * (dist - step)) in
    let prevY := Qfloor (player_y p + dirY * (dist - step)) in
    let prevZ := Qfloor (player_z p + dirZ * (dist - step)) in
    let face :=
      if negb (prevX =? x) then (if Qltb 0 dirX then 1%nat else 2%nat)
      else if negb (prevY =? y) then (if Qltb 0 dirY then 3%nat else 4%nat)
      else if negb (prevZ =? z) then (if Qltb 0 dirZ then 5%nat else 6%nat)
      else 0%nat in
    (Some (mkHit x y z face), (getBlock x y z world).2)
  else raycastLoop p dirX dirY dirZ steps (getBlock x y z world).2.
Proof.
  cbn [raycastLoop]. cbv zeta. unfold blockAt.
  by destruct (getBlock _ _ _ world) as [b w].
Qed.

Lemma raycastLoop_spec p dirX dirY dirZ steps world :
  lazyExtension world (raycastLoop p dirX dirY dirZ steps world).2 /\
  (forall h, (raycastLoop p dirX dirY dirZ steps world).1 = Some h ->
     isSolid (blockAt world (hit_x h) (hit_y h) (hit_z h)) = true /\ (face h <= 6)%nat).
Proof.
  revert world. induction steps as [|i steps IH]; intros world.
  - simpl. split; [apply lazyExtension_refl|done].
  - rewrite raycastLoop_cons. cbv zeta.
    set (x := Qfloor _). set (y := Qfloor _). set (z := Qfloor _).
    destruct (isSolid (blockAt world x y z)) eqn:Es.
    + split; [apply lazyExtension_getBlock|].
      intros h [= <-]. simpl. split; [done|].
      repeat case_match; lia.
    + destruct (IH (getBlock x y z world).2) as [Hl Hh].
      split.
      * eapply lazyExtension_trans; [apply lazyExtension_getBlock|exact Hl].
      * intros h Hr. destruct (Hh h Hr) as [Hs Hf]. split; [|done].
        by rewrite (lazyExtension_blockAt _ _ _ _ _ (lazyExtension_getBlock x y z world)) in Hs.
Qed.

Lemma raycast_unfold maxDist g :
  raycast maxDist g =
  let r := raycastLoop (player g) (viewDirection (player g)).1.1
             (viewDirection (player g)).1.2 (viewDirection (player g)).2
             (seqZ 0 (Qceiling (maxDist / 0.1))) (world g) in
  (r.1, withWorld r.2 g).
Proof.
  unfold raycast. destruct (viewDirection (player g)) as [[dx dy] dz]. simpl.
  by destruct (raycastLoop _ _ _ _ _ _).
Qed.

(** The ray only reads: it leaves a lazy extension of the world and nothing
    else changed, and what it hits is solid. *)
Lemma raycast_spec maxDist g :
  let r := raycast maxDist g in
  lazyExtension (world g) (world r.2) /\
  tntEntities r.2 = tntEntities g /\
  inventory r.2 = inventory g /\
  player r.2 = player g /\
  (forall h, r.1 = Some h ->
     isSolid (blockAt (world g) (hit_x h) (hit_y h) (hit_z h)) = true /\ (face h <= 6)%nat).
Proof.
  rewrite raycast_unfold. cbv zeta. simpl.
  pose proof (raycastLoop_spec (player g) (viewDirection (player g)).1.1
     (viewDirection (player g)).1.2 (viewDirection (player g)).2
     (seqZ 0 (Qceiling (maxDist / 0.1))) (world g)) as [Hl Hh].
  done.
Qed.

End PickRay.

(** ** The inventory invariant (C3) *)

Section Inventory.
Context `{Host}.

Lemma pickUp_ok ty inv : inventory_ok inv -> inventory_ok (pickUp ty inv).
Proof.
  intros Hok. unfold pickUp.
  destruct (list_find _ inv) as [[i s]|] eqn:E1.
  - apply list_find_Some in E1 as (Hi & [Hty Hc] & _).
    apply Forall_alter; [exact Hok|].
    intros s' Hs' [Hiff Hrange]. rewrite Hi in Hs'. injection Hs' as <-.
    split; simpl; [|lia].
    rewrite Hty. split; [done|]. intros Hz.
    assert (count s <> 0) by (intros E0; apply Hiff in E0; congruence). lia.
  - destruct (list_find (fun s => slot_type s = None) inv) as [[i s]|] eqn:E2; [|done].
    apply Forall_alter; [exact Hok|].
    intros s' _ _. split; simpl; [|lia]. split; [done|lia].
Qed.

Lemma takeOne_ok slot : slot_ok slot -> 0 < count slot -> slot_ok (takeOne slot).
Proof.
  intros [Hiff Hrange] Hpos. unfold takeOne. split; simpl; [|lia].
  destruct (Z.eqb_spec (count slot - 1) 0) as [E|E]; [done|].
  split; [|done]. intros Hn. apply Hiff in Hn. lia.
Qed.

Lemma breakBlock_inventory_ok draw1 draw2 g :
  inventory_ok (inventory g) -> inventory_ok (inventory (breakBlock draw1 draw2 g)).
Proof.
  intros Hok. unfold breakBlock.
  pose proof (raycast_spec 5 g) as (_ & _ & Hinv & _). cbv zeta in Hinv.
  destruct (raycast 5 g) as [[h|] g1]; simpl in Hinv; [|by rewrite Hinv].
  destruct (getBlock _ _ _ (world g1)) as [b w].
  destruct (decide (type b = tnt)); simpl; [by rewrite Hinv|].
  destruct (mode (player g1)); simpl; [|by rewrite Hinv].
  apply pickUp_ok. by rewrite Hinv.
Qed.

Lemma placeBlock_inventory_ok g :
  inventory_ok (inventory g) -> inventory_ok (inventory (placeBlock g)).
Proof.
  intros Hok. unfold placeBlock.
  pose proof (raycast_spec 5 g) as (_ & _ & Hinv & _). cbv zeta in Hinv.
  destruct (raycast 5 g) as [hit g1]; simpl in Hinv. rewrite <- Hinv in Hok.
  destruct hit as [h|]; [|done].
  destruct (inventory g1 !! selectedSlot (player g1)) as [slot|] eqn:Es; [|done].
  destruct (slot_type slot) as [ty|]; [|done].
  destruct (0 <? count slot) eqn:Ec; [|done].
  destruct (faceOffsets !! face h) as [[[ox oy] oz]|]; [|done].
  match goal with |- context [if ?b then _ else _] => destruct b end; [|done].
  destruct (mode (player g1)); simpl; [|done].
  apply Forall_alter; [exact Hok|].
  intros s' Hs' Hs'ok. rewrite Es in Hs'. injection Hs' as <-.
  apply takeOne_ok; [done|lia].
Qed.

(** The inventory a game starts with satisfies the invariant. *)
Lemma startInventory_ok m : inventory_ok (startInventory m).
Proof.
  assert (Hempty : slot_ok (mkSlot None 0)) by (split; simpl; [done|lia]).
  assert (Hfull : forall ty, slot_ok (mkSlot (Some ty) 64)).
  { intros ty. split; simpl; [|lia]. split; [done|lia]. }
  destruct m; unfold startInventory; cbv zeta.
  - by apply Forall_replicate.
  - generalize (imap pair ALL_BLOCKS).
    assert (Hinit : inventory_ok (replicate 36 (mkSlot None 0)))
      by (by apply Forall_replicate).
    revert Hinit. generalize (replicate 36 (mkSlot None 0)).
    intros inv Hinv l. revert inv Hinv.
    induction l as [|[index ty] l IH]; intros inv Hinv; cbn [foldl]; [done|].
    apply IH. destruct (index <? 36)%nat; [|done].
    by apply Forall_insert.
Qed.

(** C3.  Starting from an inventory whose slots all satisfy the invariant,
    after any sequence of [breakBlock] and [placeBlock], with whatever the
    rest of the game does to the player, the world and the entities in
    between, every slot still has its kind [null] exactly when its count is
    0, and its count in [0,64]. *)
Theorem inventory_invariant (actions : list Action) (g : Game) :
  inventory_ok (inventory g) ->
  inventory_ok (inventory (run actions g)).
Proof.
  unfold run. revert g.
  induction actions as [|a actions IH]; intros g Hok; simpl; [done|].
  apply IH. destruct a as [d1 d2| |w ts p]; simpl.
  - by apply breakBlock_inventory_ok.
  - by apply placeBlock_inventory_ok.
  - done.
Qed.

End Inventory.

(** ** Breaking and placing (C7, C9, C10) *)

Section Interaction.
Context `{Host}.

(** [breakBlock] after the ray has hit [h]: the block it reads there is the
    one the world showed before the call. *)
Lemma breakBlock_hit draw1 draw2 g h :
  (raycast 5 g).1 = Some h ->
  exists w,
    lazyExtension (world g) w /\
    breakBlock draw1 draw2 g =
    let block := blockAt (world g) (hit_x h) (hit_y h) (hit_z h) in
    let g1 := mkGame w (tntEntities g) (inventory g) (player g) in
    if decide (type block = tnt) then
      igniteTNT draw1 draw2 (hit_x h) (hit_y h) (hit_z h) g1
    else
      let g2 := withWorld (setBlock (hit_x h) (hit_y h) (hit_z h) (mkBlock air) w) g1 in
      match mode (player g) with
      | survival => withInventory (pickUp (type block) (inventory g)) g2
      | creative => g2
      end.
Proof.
  intros Hhit. unfold breakBlock.
  pose proof (raycast_spec 5 g) as (Hl & Ht & Hi & Hp & _). cbv zeta in *.
  destruct (raycast 5 g) as [hit g1]. simpl in *. subst hit.
  destruct g1 as [w1 ts1 inv1 p1]. simpl in *. subst ts1 inv1 p1.
  exists (getBlock (hit_x h) (hit_y h) (hit_z h) w1).2.
  split.
  { eapply lazyExtension_trans; [exact Hl|apply lazyExtension_getBlock]. }
  pose proof (lazyExtension_blockAt _ _ (hit_x h) (hit_y h) (hit_z h) Hl) as Hb.
  unfold blockAt in Hb at 1.
  destruct (getBlock (hit_x h) (hit_y h) (hit_z h) w1) as [b w2]. simpl in *. subst b.
  unfold withWorld. simpl. done.
Qed.

(** C7.  A break whose ray hits a voxel of kind tnt ignites it: the voxel
    then reads air, one entity with fuse 80 is appended at the centre of
    the voxel, and the inventory is unchanged. *)
Theorem breakBlock_ignites_tnt (draw1 draw2 : Q) (g : Game) (h : Hit) :
  world_wf (world g) ->
  (raycast 5 g).1 = Some h ->
  type (blockAt (world g) (hit_x h) (hit_y h) (hit_z h)) = tnt ->
  let g' := breakBlock draw1 draw2 g in
  blockAt (world g') (hit_x h) (hit_y h) (hit_z h) = mkBlock air /\
  tntEntities g' =
    tntEntities g ++
      [mkTNT (inject_Z (hit_x h) + 0.5) (inject_Z (hit_y h) + 0.5)
             (inject_Z (hit_z h) + 0.5)
             ((draw1 - 0.5) * 0.02) 0.2 ((draw2 - 0.5) * 0.02) 80] /\
  inventory g' = inventory g.
Proof.
  intros Hwf Hhit Htnt g'. subst g'.
  destruct (breakBlock_hit draw1 draw2 g h Hhit) as (w & Hl & ->). cbv zeta.
  rewrite decide_True by done. unfold igniteTNT. simpl.
  split; [|done].
  apply blockAt_setBlock_eq.
  - by apply (lazyExtension_wf (world g)).
  - apply (blockAt_not_air_height (world g) (hit_x h) _ (hit_z h)). by rewrite Htnt.
Qed.

(** C10.  In survival mode, when the ray hits a voxel that is not tnt and
    the inventory has neither a slot of that kind with fewer than 64 items
    nor an empty slot, the voxel is set to air all the same and the
    inventory is unchanged: the mined block is lost. *)
Theorem breakBlock_full_inventory (draw1 draw2 : Q) (g : Game) (h : Hit) :
  world_wf (world g) ->
  mode (player g) = survival ->
  (raycast 5 g).1 = Some h ->
  let ty := type (blockAt (world g) (hit_x h) (hit_y h) (hit_z h)) in
  ty <> tnt ->
  (forall s, s ∈ inventory g -> ~ (slot_type s = Some ty /\ count s < 64)) ->
  (forall s, s ∈ inventory g -> slot_type s <> None) ->
  let g' := breakBlock draw1 draw2 g in
  blockAt (world g') (hit_x h) (hit_y h) (hit_z h) = mkBlock air /\
  inventory g' = inventory g.
Proof.
  intros Hwf Hmode Hhit ty Hty Hfull Hnoempty g'. subst g'.
  destruct (breakBlock_hit draw1 draw2 g h Hhit) as (w & Hl & ->). cbv zeta.
  fold ty. rewrite decide_False by done. rewrite Hmode. simpl.
  pose proof (raycast_spec 5 g) as (_ & _ & _ & _ & Hsolid). cbv zeta in Hsolid.
  destruct (Hsolid h Hhit) as [Hs _].
  split.
  - apply blockAt_setBlock_eq.
    + by apply (lazyExtension_wf (world g)).
    + apply (blockAt_not_air_height (world g) (hit_x h) _ (hit_z h)).
      unfold isSolid in Hs. apply andb_true_iff in Hs as [Hs _].
      apply negb_true_iff, bool_decide_eq_false in Hs. done.
  - unfold pickUp.
    assert (E1 : list_find (fun s => slot_type s = Some ty /\ count s < 64) (inventory g) = None).
    { apply list_find_None, Forall_forall. exact Hfull. }
    assert (E2 : list_find (fun s => slot_type s = None) (inventory g) = None).
    { apply list_find_None, Forall_forall. exact Hnoempty. }
    by rewrite E1, E2.
Qed.

(** [placeBlock] when the target of the placement lies in the player's box:
    the game is as the ray left it. *)
Lemma placeBlock_guarded g h ox oy oz :
  (raycast 5 g).1 = Some h ->
  faceOffsets !! face h = Some (ox, oy, oz) ->
  Qfloor (player_x (player g) - 0.3) <= hit_x h + ox <= Qfloor (player_x (player g) + 0.3) ->
  Qfloor (player_y (player g) - 1.8) <= hit_y h + oy <= Qfloor (player_y (player g) + 0.2) ->
  Qfloor (player_z (player g) - 0.3) <= hit_z h + oz <= Qfloor (player_z (player g) + 0.3) ->
  placeBlock g = (raycast 5 g).2.
Proof.
  intros Hhit Hoff Hx Hy Hz. unfold placeBlock.
  pose proof (raycast_spec 5 g) as (_ & _ & _ & Hp & _). cbv zeta in Hp.
  destruct (raycast 5 g) as [hit g1]. cbn [fst snd] in *. subst hit. rewrite Hp.
  destruct (inventory g1 !! selectedSlot (player g)) as [slot|]; [|done].
  destruct (slot_type slot) as [ty|]; [|done].
  destruct (0 <? count slot); [|done]. rewrite Hoff.
  match goal with |- (if ?b then _ else _) = _ => replace b with false by lia end.
  done.
Qed.

(** C9, as the code has it.  When the ray hits and the target of the
    placement, the hit voxel plus the offset of its face, lies in the
    floored box of the player, [placeBlock] writes no voxel and changes no
    slot: the inventory, the entities and the player are unchanged, every
    chunk of the chunk map is kept as it is, and every voxel reads as
    before.  The chunk map itself may have gained the chunks the ray read. *)
Theorem placeBlock_inside_player_box (g : Game) (h : Hit) (ox oy oz : Z) :
  (raycast 5 g).1 = Some h ->
  faceOffsets !! face h = Some (ox, oy, oz) ->
  Qfloor (player_x (player g) - 0.3) <= hit_x h + ox <= Qfloor (player_x (player g) + 0.3) ->
  Qfloor (player_y (player g) - 1.8) <= hit_y h + oy <= Qfloor (player_y (player g) + 0.2) ->
  Qfloor (player_z (player g) - 0.3) <= hit_z h + oz <= Qfloor (player_z (player g) + 0.3) ->
  let g' := placeBlock g in
  inventory g' = inventory g /\
  tntEntities g' = tntEntities g /\
  player g' = player g /\
  world g ⊆ world g' /\
  (forall key, is_Some (world g !! key) -> world g' !! key = world g !! key) /\
  (forall x y z, blockAt (world g') x y z = blockAt (world g) x y z).
Proof.
  intros Hhit Hoff Hx Hy Hz g'. subst g'.
  rewrite (placeBlock_guarded g h ox oy oz) by done.
  pose proof (raycast_spec 5 g) as (Hl & Ht & Hi & Hp & _). cbv zeta in *.
  repeat split; try done.
  - apply Hl.
  - intros key Hk. by apply lazyExtension_loaded.
  - intros x y z. by apply lazyExtension_blockAt.
Qed.

(** *** The extent of the chunks is kept *)

Lemma world_wf_raycast maxDist g :
  world_wf (world g) -> world_wf (world (raycast maxDist g).2).
Proof.
  intros Hwf. pose proof (raycast_spec maxDist g) as (Hl & _). cbv zeta in Hl.
  by apply (lazyExtension_wf (world g)).
Qed.

Lemma world_wf_igniteTNT draw1 draw2 x y z g :
  world_wf (world g) -> world_wf (world (igniteTNT draw1 draw2 x y z g)).
Proof. intros Hwf. unfold igniteTNT. cbn [world]. by apply world_wf_setBlock. Qed.

Lemma world_wf_breakBlock draw1 draw2 g :
  world_wf (world g) -> world_wf (world (breakBlock draw1 draw2 g)).
Proof.
  intros Hwf. destruct (raycast 5 g).1 as [h|] eqn:Hhit.
  - destruct (breakBlock_hit draw1 draw2 g h Hhit) as (w & Hl & ->). cbv zeta.
    assert (world_wf w) by (by apply (lazyExtension_wf (world g))).
    destruct (decide _); [by apply world_wf_igniteTNT|].
    destruct (mode (player g)); cbn [world withWorld withInventory];
      by apply world_wf_setBlock.
  - pose proof (world_wf_raycast 5 g Hwf) as Hr. unfold breakBlock.
    destruct (raycast 5 g) as [hit g1]. cbn [fst snd] in *. by subst hit.
Qed.

Lemma world_wf_placeBlock g :
  world_wf (world g) -> world_wf (world (placeBlock g)).
Proof.
  intros Hwf. pose proof (world_wf_raycast 5 g Hwf) as Hr. unfold placeBlock.
  destruct (raycast 5 g) as [hit g1]. cbn [fst snd] in *.
  repeat case_match; try done;
    cbn [world withWorld withInventory]; by apply world_wf_setBlock.
Qed.

End Interaction.

(** ** The face a ray along +x reports (C5) *)

Section PickFace.
Context `{Host}.

(** The sample of the ray at step [i]. *)
Let sample (p : Player) (dirX dirY dirZ : Q) (i : Z) : Z * Z * Z :=
  (Qfloor (player_x p + dirX * (inject_Z i * 0.1)),
   Qfloor (player_y p + dirY * (inject_Z i * 0.1)),
   Qfloor (player_z p + dirZ * (inject_Z i * 0.1))).

Lemma raycastLoop_plus_x p dirX dirY dirZ :
  (dirX == 1)%Q -> (dirY == 0)%Q -> (dirZ == 0)%Q ->
  forall (m : nat) (i : Z) world h,
    isSolid (blockAt world (sample p dirX dirY dirZ (i - 1)).1.1
                           (sample p dirX dirY dirZ (i - 1)).1.2
                           (sample p dirX dirY dirZ (i - 1)).2) = false ->
    (raycastLoop p dirX dirY dirZ (seqZ i (Z.of_nat m)) world).1 = Some h ->
    face h = 1%nat.
Proof.
  intros Hx Hy Hz m. induction m as [|m IH]; intros i world h Hprev Hr.
  - done.
  - rewrite seqZ_cons in Hr by lia.
    replace (Z.pred (Z.of_nat (S m))) with (Z.of_nat m) in Hr by lia.
    rewrite raycastLoop_cons in Hr. cbv zeta in Hr.
    set (x := Qfloor (player_x p + dirX * (inject_Z i * 0.1))) in *.
    set (y := Qfloor (player_y p + dirY * (inject_Z i * 0.1))) in *.
    set (z := Qfloor (player_z p + dirZ * (inject_Z i * 0.1))) in *.
    destruct (isSolid (blockAt world x y z)) eqn:Es.
    + set (prevX := Qfloor (player_x p + dirX * (inject_Z i * 0.1 - 0.1))) in *.
      set (prevY := Qfloor (player_y p + dirY * (inject_Z i * 0.1 - 0.1))) in *.
      set (prevZ := Qfloor (player_z p + dirZ * (inject_Z i * 0.1 - 0.1))) in *.
      unfold fst in Hr. injection Hr as <-. unfold face.
      assert (Ey : Qfloor (player_y p + dirY * (inject_Z (i - 1) * 0.1)) = y).
      { subst y. apply Qfloor_comp. rewrite Hy. ring. }
      assert (Ez : Qfloor (player_z p + dirZ * (inject_Z (i - 1) * 0.1)) = z).
      { subst z. apply Qfloor_comp. rewrite Hz. ring. }
      assert (Ex : Qfloor (player_x p + dirX * (inject_Z i * 0.1 - 0.1)) =
                   Qfloor (player_x p + dirX * (inject_Z (i - 1) * 0.1))).
      { apply Qfloor_comp. unfold Z.sub. rewrite inject_Z_plus.
        change (inject_Z (- (1))) with (- (1))%Q. ring. }
      unfold sample in Hprev. cbn [fst snd] in Hprev. rewrite Ey, Ez in Hprev.
      destruct (Z.eqb_spec prevX x) as [E|E].
      * subst prevX. rewrite Ex in E. rewrite E in Hprev. congruence.
      * cbn [negb].
        assert (Hpos : Qltb 0 dirX = true) by (apply Qltb_lt; rewrite Hx; reflexivity).
        by rewrite Hpos.
    + apply (IH (Z.succ i) (getBlock x y z world).2 h); [|exact Hr].
      replace (Z.succ i - 1) with i by lia.
      unfold sample. cbn [fst snd]. fold x y z.
      by rewrite (lazyExtension_blockAt world _ x y z (lazyExtension_getBlock x y z world)).
Qed.

(** C5, what the code does.  On a ray along the positive x axis that
    starts in a voxel that is not solid, every hit, the near ones included,
    reports the face 1, whose offset in the table of [placeBlock] is
    [(1, 0, 0)]: the block is placed at [x + 1], behind the voxel hit, and
    not at [x - 1] between the player and the voxel. *)
Theorem raycast_plus_x_reports_face_1 (g : Game) (h : Hit) :
  ((viewDirection (player g)).1.1 == 1)%Q ->
  ((viewDirection (player g)).1.2 == 0)%Q ->
  ((viewDirection (player g)).2 == 0)%Q ->
  isSolid (blockAt (world g) (Qfloor (player_x (player g)))
                   (Qfloor (player_y (player g))) (Qfloor (player_z (player g)))) = false ->
  (raycast 5 g).1 = Some h ->
  face h = 1%nat /\ faceOffsets !! face h = Some (1, 0, 0).
Proof.
  intros Hx Hy Hz Heye Hr.
  assert (Hf : face h = 1%nat); [|by rewrite Hf].
  rewrite raycast_unfold in Hr. cbv zeta in Hr. cbn [fst] in Hr.
  change (Qceiling (5 / 0.1)) with 50 in Hr.
  change (seqZ 0 50) with (0 :: seqZ 1 (Z.of_nat 49)) in Hr.
  rewrite raycastLoop_cons in Hr. cbv zeta in Hr.
  set (p := player g) in *.
  set (dirX := (viewDirection p).1.1) in *.
  set (dirY := (viewDirection p).1.2) in *.
  set (dirZ := (viewDirection p).2) in *.
  assert (E0x : Qfloor (player_x p + dirX * (inject_Z 0 * 0.1)) = Qfloor (player_x p)).
  { apply Qfloor_comp. change (inject_Z 0) with 0%Q. ring. }
  assert (E0y : Qfloor (player_y p + dirY * (inject_Z 0 * 0.1)) = Qfloor (player_y p)).
  { apply Qfloor_comp. change (inject_Z 0) with 0%Q. ring. }
  assert (E0z : Qfloor (player_z p + dirZ * (inject_Z 0 * 0.1)) = Qfloor (player_z p)).
  { apply Qfloor_comp. change (inject_Z 0) with 0%Q. ring. }
  rewrite E0x, E0y, E0z in Hr. rewrite Heye in Hr.
  eapply (raycastLoop_plus_x p dirX dirY dirZ Hx Hy Hz 49 1); [|exact Hr].
  unfold sample. cbn [fst snd]. change (1 - 1) with 0.
  rewrite E0x, E0y, E0z.
  by rewrite (lazyExtension_blockAt (world g) _ _ _ _ (lazyExtension_getBlock _ _ _ (world g))).
Qed.

End PickFace.

(** ** The tick of a TNT entity (C6) *)

Section Tick.
Context `{Host}.

(** The tick of an entity whose fuse stays positive: the fuse decremented,
    0.02 taken from the vertical velocity, the velocity added to the
    position, and the landing when the voxel read below is anything but
    air. *)
Lemma tickTNT_armed blast spark tnt g :
  1 < tnt_fuse tnt ->
  let velY := (tnt_velY tnt - 0.02)%Q in
  let x := (tnt_x tnt + tnt_velX tnt)%Q in
  let y := (tnt_y tnt + velY)%Q in
  let z := (tnt_z tnt + tnt_velZ tnt)%Q in
  let below := blockAt (world g) (Qfloor x) (Qfloor (y - 0.5)) (Qfloor z) in
  (tickTNT blast spark tnt g).1 =
  Some (if decide (type below = air)
        then mkTNT x y z (tnt_velX tnt) velY (tnt_velZ tnt) (tnt_fuse tnt - 1)
        else mkTNT x (inject_Z (Qfloor y) + 0.5) z
                   (tnt_velX tnt * 0.8) 0 (tnt_velZ tnt * 0.8) (tnt_fuse tnt - 1)).
Proof.
  intros Hfuse velY x y z below. unfold tickTNT.
  replace (tnt_fuse tnt - 1 <=? 0) with false by lia.
  fold velY x y z. unfold below, blockAt.
  destruct (getBlock (Qfloor x) (Qfloor (y - 0.5)) (Qfloor z) (world g)) as [b w].
  cbn [fst]. destruct (decide (type b = air)) as [E|E].
  - by rewrite bool_decide_eq_true_2.
  - by rewrite bool_decide_eq_false_2.
Qed.

(** C6, what the code does over water.  An armed entity whose fuse stays
    positive lands on a voxel of water below it as it does on a solid one:
    the vertical velocity is zeroed, the horizontal velocity multiplied by
    0.8, and the entity snapped to the middle of its voxel. *)
Theorem tickTNT_lands_on_water blast spark (tnt : TNTEntity) (g : Game) :
  1 < tnt_fuse tnt ->
  let velY := (tnt_velY tnt - 0.02)%Q in
  let x := (tnt_x tnt + tnt_velX tnt)%Q in
  let y := (tnt_y tnt + velY)%Q in
  let z := (tnt_z tnt + tnt_velZ tnt)%Q in
  type (blockAt (world g) (Qfloor x) (Qfloor (y - 0.5)) (Qfloor z)) = water ->
  (tickTNT blast spark tnt g).1 =
  Some (mkTNT x (inject_Z (Qfloor y) + 0.5) z
              (tnt_velX tnt * 0.8) 0 (tnt_velZ tnt * 0.8) (tnt_fuse tnt - 1)).
Proof.
  intros Hfuse velY x y z Hwater.
  rewrite tickTNT_armed by done. cbv zeta. fold velY x y z.
  rewrite decide_False; [done|]. by rewrite Hwater.
Qed.

End Tick.

(** ** The explosion (C4) *)

Section Explosion.
Context `{Host}.

Lemma Qfloor_plus_Z (q : Q) (n : Z) : Qfloor (q + inject_Z n) = Qfloor q + n.
Proof.
  destruct q as [a b]. unfold Qfloor, Qplus, inject_Z. cbn [Qnum Qden].
  rewrite Pos.mul_1_r, Z.mul_1_r. apply Z.div_add. done.
Qed.

(** One cell of the explosion: it rewrites at most the voxel at its offset
    from the voxel of the centre, as [blastResult] says, and appends the
    ignited entity when that voxel held tnt. *)
Lemma explodeCell_effect blast spark x y z dx dy dz g :
  world_wf (world g) ->
  let bx := Qfloor x + dx in
  let by_ := Qfloor y + dy in
  let bz := Qfloor z + dz in
  let b := blockAt (world g) bx by_ bz in
  let g1 := explodeCell blast spark x y z dx dy dz g in
  world_wf (world g1) /\
  blockAt (world g1) bx by_ bz = blastResult blast dx dy dz b /\
  (forall x' y' z', (x', y', z') <> (bx, by_, bz) ->
     blockAt (world g1) x' y' z' = blockAt (world g) x' y' z') /\
  tntEntities g1 =
    tntEntities g ++
      (if sqrt_le (dx * dx + dy * dy + dz * dz) 4 && bool_decide (type b = tnt)
       then [ignited (spark dx dy dz) bx by_ bz] else []).
Proof.
  intros Hwf bx by_ bz b g1. subst g1. unfold explodeCell, blastResult. cbv zeta.
  rewrite !Qfloor_plus_Z. fold bx by_ bz.
  destruct (sqrt_le (dx * dx + dy * dy + dz * dz) 4) eqn:Er; cbn [andb].
  2:{ rewrite app_nil_r. done. }
  pose proof (lazyExtension_getBlock bx by_ bz (world g)) as Hl.
  assert (Hb : (getBlock bx by_ bz (world g)).1 = b) by done.
  destruct (getBlock bx by_ bz (world g)) as [b' w]. cbn [fst snd] in Hl, Hb. subst b'.
  assert (Hwf' : world_wf w) by (by apply (lazyExtension_wf (world g))).
  assert (Hset : type b <> air ->
            world_wf (setBlock bx by_ bz (mkBlock air) w) /\
            blockAt (setBlock bx by_ bz (mkBlock air) w) bx by_ bz = mkBlock air /\
            (forall x' y' z', (x', y', z') <> (bx, by_, bz) ->
               blockAt (setBlock bx by_ bz (mkBlock air) w) x' y' z' =
               blockAt (world g) x' y' z')).
  { intros Hne. split; [by apply world_wf_setBlock|]. split.
    - apply blockAt_setBlock_eq; [done|].
      by apply (blockAt_not_air_height (world g) bx by_ bz).
    - intros x' y' z' Hv. rewrite blockAt_setBlock_ne by done.
      by apply lazyExtension_blockAt. }
  destruct (decide (type b = tnt)) as [Et|Et].
  - rewrite bool_decide_eq_true_2 by done.
    destruct Hset as (? & ? & ?); [by rewrite Et|].
    unfold igniteTNT, withWorld, ignited. cbn [world tntEntities]. done.
  - rewrite (bool_decide_eq_false_2 (type b = tnt)) by done. rewrite app_nil_r.
    destruct (negb (bool_decide (type b = air)) &&
              random_exceeds (blast dx dy dz) (dx * dx + dy * dy + dz * dz) 4) eqn:Ed.
    + apply andb_true_iff in Ed as [Ea _].
      apply negb_true_iff, bool_decide_eq_false in Ea.
      destruct (Hset Ea) as (? & ? & ?).
      unfold withWorld. cbn [world tntEntities]. done.
    + unfold withWorld. cbn [world tntEntities].
      split; [done|]. split; [by apply lazyExtension_blockAt|].
      split; [|done]. intros. by apply lazyExtension_blockAt.
Qed.

(** The cells of a list of distinct offsets, one after the other. *)
Lemma explodeCells_effect blast spark x y z (offsets : list (Z * Z * Z)) :
  NoDup offsets ->
  forall g, world_wf (world g) ->
  let g' := foldl (fun g o => explodeCell blast spark x y z o.1.1 o.1.2 o.2 g) g offsets in
  world_wf (world g') /\
  (exists new, tntEntities g' = tntEntities g ++ new) /\
  (forall dx dy dz,
     let bx := Qfloor x + dx in
     let by_ := Qfloor y + dy in
     let bz := Qfloor z + dz in
     let b := blockAt (world g) bx by_ bz in
     ((dx, dy, dz) ∉ offsets -> blockAt (world g') bx by_ bz = b) /\
     ((dx, dy, dz) ∈ offsets ->
        blockAt (world g') bx by_ bz = blastResult blast dx dy dz b /\
        (sqrt_le (dx * dx + dy * dy + dz * dz) 4 = true -> type b = tnt ->
         exists l1 l2,
           tntEntities g' =
           tntEntities g ++ l1 ++ ignited (spark dx dy dz) bx by_ bz :: l2))).
Proof.
  induction 1 as [|[[ox oy] oz] offsets Hnotin Hnodup IH]; intros g Hwf; cbn [foldl].
  - split; [done|]. split; [exists []; by rewrite app_nil_r|].
    intros dx dy dz. split; [done|]. intros Hin. by apply elem_of_nil in Hin.
  - cbn [fst snd].
    destruct (explodeCell_effect blast spark x y z ox oy oz g Hwf)
      as (Hwf1 & Hown & Hother & Hents).
    set (g1 := explodeCell blast spark x y z ox oy oz g) in *.
    destruct (IH g1 Hwf1) as (Hwf' & [new Hnew] & Hcells).
    set (g' := foldl _ g1 offsets) in *.
    split; [done|]. split.
    { rewrite Hnew, Hents. rewrite <- app_assoc. eauto. }
    intros dx dy dz. cbv zeta.
    destruct (Hcells dx dy dz) as [Hout Hin]. cbv zeta in Hout, Hin.
    destruct (decide ((dx, dy, dz) = (ox, oy, oz))) as [E|E].
    + injection E as -> -> ->. split.
      * intros Hn. exfalso. apply Hn. apply elem_of_cons. by left.
      * intros _. rewrite (Hout Hnotin). split; [exact Hown|].
        intros Hr Ht. rewrite Hr, bool_decide_eq_true_2 in Hents by done.
        cbn [andb] in Hents. exists [], new.
        rewrite Hnew, Hents. by rewrite <- app_assoc.
    + assert (Hv : (Qfloor x + dx, Qfloor y + dy, Qfloor z + dz) <>
                   (Qfloor x + ox, Qfloor y + oy, Qfloor z + oz)).
      { intros Ev. injection Ev as E1 E2 E3. apply E. f_equal; [f_equal|]; lia. }
      rewrite <- (Hother _ _ _ Hv). split.
      * intros Hn. apply Hout. intros Hi. apply Hn. apply elem_of_cons. by right.
      * intros Hi. apply elem_of_cons in Hi as [Hi|Hi]; [done|].
        destruct (Hin Hi) as [Hres Hspawn]. split; [exact Hres|].
        intros Hr Ht. destruct (Hspawn Hr Ht) as (l1 & l2 & Hl).
        rewrite Hl, Hents. rewrite <- app_assoc.
        eexists (_ ++ l1), l2. by rewrite <- app_assoc.
Qed.

Lemma foldl_bind_flat {A B C} (f : A -> C -> A) (k : B -> list C) (l : list B) (a : A) :
  foldl f a (l ≫= k) = foldl (fun a x => foldl f a (k x)) a l.
Proof.
  revert a. induction l as [|x l IH]; intros a; [done|].
  cbn [mbind list_bind foldl]. rewrite foldl_app. apply IH.
Qed.

Lemma explodeTNT_flat blast spark x y z g :
  explodeTNT blast spark x y z g =
  foldl (fun g o => explodeCell blast spark x y z o.1.1 o.1.2 o.2 g) g blastOffsets.
Proof.
  unfold explodeTNT, blastOffsets.
  rewrite foldl_bind_flat. reflexivity.
Qed.

Lemma blastOffsets_NoDup : NoDup blastOffsets.
Proof. refine (bool_decide_unpack (NoDup blastOffsets) _). vm_compute. exact I. Qed.

Lemma elem_of_blastOffsets dx dy dz :
  (dx, dy, dz) ∈ blastOffsets <-> (-4 <= dx <= 4 /\ -4 <= dy <= 4 /\ -4 <= dz <= 4).
Proof.
  unfold blastOffsets. rewrite list_elem_of_bind. split.
  - intros (dx' & Hin & Hdx). apply list_elem_of_bind in Hin as (dy' & Hin & Hdy).
    apply list_elem_of_bind in Hin as (dz' & Hin & Hdz).
    apply list_elem_of_singleton in Hin. injection Hin as -> -> ->.
    apply elem_of_seqZ in Hdx, Hdy, Hdz. lia.
  - intros (Hx & Hy & Hz). exists dx. split; [|apply elem_of_seqZ; lia].
    apply list_elem_of_bind. exists dy. split; [|apply elem_of_seqZ; lia].
    apply list_elem_of_bind. exists dz. split; [|apply elem_of_seqZ; lia].
    by apply list_elem_of_singleton.
Qed.

(** *** The comparisons with [Math.sqrt], in the reals *)

Lemma sqrt_le_16 (n : Z) : sqrt_le n 4 = true <-> n <= 16.
Proof.
  unfold sqrt_le. rewrite andb_true_iff, !Qle_bool_iff.
  unfold Qle, Qmult, inject_Z. cbn [Qnum Qden]. lia.
Qed.

Lemma Q2R_inject_Z (n : Z) : Q2R (inject_Z n) = IZR n.
Proof. unfold Q2R, inject_Z. cbn [Qnum Qden]. rewrite Rinv_1. apply Rmult_1_r. Qed.

Lemma sqrt_IZR_le_4 (n : Z) : 0 <= n -> (sqrt (IZR n) <= 4)%R <-> n <= 16.
Proof.
  intros Hn.
  assert (H4 : sqrt 16 = 4%R).
  { replace 16%R with (4 * 4)%R by Lra.lra. apply sqrt_square. Lra.lra. }
  assert (H0 : (0 <= IZR n)%R) by (by apply IZR_le).
  split.
  - intros Hs. apply le_IZR. apply Rnot_lt_le. intros Hlt.
    pose proof (sqrt_lt_1_alt 16 (IZR n) ltac:(split; [Lra.lra|exact Hlt])) as Hc.
    rewrite H4 in Hc. Lra.lra.
  - intros Hle. rewrite <- H4. apply sqrt_le_1_alt. by apply IZR_le.
Qed.

Lemma random_exceeds_real (r : Q) (n : Z) :
  0 <= n ->
  random_exceeds r n 4 = true <-> (Q2R r > 0.5 * (sqrt (IZR n) / 4))%R.
Proof.
  intros Hn. unfold random_exceeds. cbv zeta.
  assert (Hq : (r * 4 / 0.5 == r * 8)%Q) by (field; done).
  rewrite andb_true_iff, !Qltb_lt.
  rewrite Hq.
  assert (H0 : (0 <= IZR n)%R) by (by apply IZR_le).
  pose proof (sqrt_pos (IZR n)) as Hs0.
  pose proof (sqrt_sqrt (IZR n) H0) as Hss.
  set (s := sqrt (IZR n)) in *.
  assert (Ht : Q2R (r * 8) = (8 * Q2R r)%R).
  { rewrite Q2R_mult. change 8%Q with (inject_Z 8). rewrite Q2R_inject_Z. Lra.lra. }
  split.
  - intros [Hpos Hlt].
    apply Qlt_Rlt in Hpos, Hlt.
    rewrite Q2R_mult, Q2R_inject_Z, Ht in Hlt. rewrite Ht in Hpos.
    change (Q2R 0) with (Q2R (inject_Z 0)) in Hpos. rewrite Q2R_inject_Z in Hpos.
    assert (s < 8 * Q2R r)%R by Lra.nra.
    Lra.lra.
  - intros Hgt.
    assert (Hst : (s < 8 * Q2R r)%R) by Lra.lra.
    split; apply Rlt_Qlt.
    + change (Q2R 0) with (Q2R (inject_Z 0)). rewrite Q2R_inject_Z, Ht. Lra.lra.
    + rewrite Q2R_mult, Q2R_inject_Z, Ht. Lra.nra.
Qed.

(** C4.  The explosion at [(x, y, z)], seen at the voxel [(bx, by, bz)].
    The distance is the one the code takes: the Euclidean norm of the
    offset between the voxel and the voxel that holds the centre.  A voxel
    farther than 4 reads as before.  Within the radius, a voxel of tnt
    reads air afterwards and its entity, fuse 80, has been appended; air
    stays air; any other voxel reads air when the draw of its offset
    exceeds [0.5 * (distance / 4)] and is unchanged when not. *)
Theorem explodeTNT_radius blast spark (x y z : Q) (g : Game) (bx by_ bz : Z) :
  world_wf (world g) ->
  let dx := bx - Qfloor x in
  let dy := by_ - Qfloor y in
  let dz := bz - Qfloor z in
  let dist := sqrt (IZR (dx * dx + dy * dy + dz * dz)) in
  let before := blockAt (world g) bx by_ bz in
  let g' := explodeTNT blast spark x y z g in
  let after := blockAt (world g') bx by_ bz in
  ((4 < dist)%R -> after = before) /\
  ((dist <= 4)%R ->
     (type before = tnt ->
        after = mkBlock air /\
        tnt_fuse (ignited (spark dx dy dz) bx by_ bz) = 80 /\
        exists l1 l2,
          tntEntities g' =
          tntEntities g ++ l1 ++ ignited (spark dx dy dz) bx by_ bz :: l2) /\
     (type before = air -> after = before) /\
     (type before <> tnt -> type before <> air ->
        ((Q2R (blast dx dy dz) > 0.5 * (dist / 4))%R -> after = mkBlock air) /\
        (~ (Q2R (blast dx dy dz) > 0.5 * (dist / 4))%R -> after = before))).
Proof.
  intros Hwf dx dy dz dist before g' after.
  assert (Hn : 0 <= dx * dx + dy * dy + dz * dz) by nia.
  pose proof (explodeCells_effect blast spark x y z blastOffsets blastOffsets_NoDup g Hwf)
    as (_ & _ & Hcells).
  cbv zeta in Hcells. rewrite <- explodeTNT_flat in Hcells.
  specialize (Hcells dx dy dz).
  replace (Qfloor x + dx) with bx in Hcells by (unfold dx; lia).
  replace (Qfloor y + dy) with by_ in Hcells by (unfold dy; lia).
  replace (Qfloor z + dz) with bz in Hcells by (unfold dz; lia).
  fold g' after before in Hcells. destruct Hcells as [Hout Hin].
  assert (Hres : after = blastResult blast dx dy dz before).
  { destruct (decide ((dx, dy, dz) ∈ blastOffsets)) as [Hi|Hi].
    - apply Hin, Hi.
    - rewrite (Hout Hi). unfold blastResult. cbv zeta.
      destruct (sqrt_le (dx * dx + dy * dy + dz * dz) 4) eqn:Er; [|done].
      exfalso. apply Hi. apply elem_of_blastOffsets.
      apply sqrt_le_16 in Er. nia. }
  split.
  - intros Hfar. rewrite Hres. unfold blastResult. cbv zeta.
    destruct (sqrt_le (dx * dx + dy * dy + dz * dz) 4) eqn:Er; [|done].
    exfalso. apply sqrt_le_16, (sqrt_IZR_le_4 _ Hn) in Er. fold dist in Er. Lra.lra.
  - intros Hnear.
    assert (Er : sqrt_le (dx * dx + dy * dy + dz * dz) 4 = true).
    { apply sqrt_le_16, (sqrt_IZR_le_4 _ Hn). exact Hnear. }
    assert (Hi : (dx, dy, dz) ∈ blastOffsets).
    { apply elem_of_blastOffsets. apply sqrt_le_16 in Er. nia. }
    unfold blastResult in Hres. cbv zeta in Hres. rewrite Er in Hres.
    split; [|split].
    + intros Ht. rewrite decide_True in Hres by done.
      split; [done|]. split; [done|].
      destruct (Hin Hi) as [_ Hspawn]. by apply Hspawn.
    + intros Ha. rewrite decide_False in Hres by (by rewrite Ha).
      rewrite bool_decide_eq_true_2 in Hres by done. done.
    + intros Ht Ha. rewrite decide_False in Hres by done.
      rewrite (bool_decide_eq_false_2 (type before = air)) in Hres by done.
      cbn [negb andb] in Hres.
      pose proof (random_exceeds_real (blast dx dy dz) _ Hn) as Hreal.
      fold dist in Hreal.
      destruct (random_exceeds (blast dx dy dz) (dx * dx + dy * dy + dz * dz) 4).
      * split; [done|]. intros Hno. exfalso. apply Hno. by apply Hreal.
      * split; [|done]. intros Hyes. apply Hreal in Hyes. done.
Qed.

Lemma world_wf_explodeTNT blast spark x y z g :
  world_wf (world g) -> world_wf (world (explodeTNT blast spark x y z g)).
Proof.
  intros Hwf. rewrite explodeTNT_flat.
  by destruct (explodeCells_effect blast spark x y z blastOffsets blastOffsets_NoDup g Hwf).
Qed.

Lemma world_wf_tickTNT blast spark tnt g :
  world_wf (world g) -> world_wf (world (tickTNT blast spark tnt g).2).
Proof.
  intros Hwf. unfold tickTNT. destruct (tnt_fuse tnt - 1 <=? 0).
  - by apply world_wf_explodeTNT.
  - pose proof (world_wf_getBlock (Qfloor (tnt_x tnt + tnt_velX tnt))
        (Qfloor (tnt_y tnt + (tnt_velY tnt - 0.02) - 0.5))
        (Qfloor (tnt_z tnt + tnt_velZ tnt)) (world g) Hwf) as Hg.
    destruct (getBlock _ _ _ (world g)) as [b w]. cbn [snd] in Hg.
    by destruct (negb _).
Qed.

End Explosion.

(** * Closed instances

    Each theorem with a hypothesis is run once on a concrete game, and each
    statement of the spec that the code does not meet is refuted on one. *)

Create HintDb voxel discriminated.
#[global] Hint Resolve world_wf_empty world_wf_setBlock world_wf_getBlock
  world_wf_raycast world_wf_igniteTNT world_wf_breakBlock world_wf_placeBlock
  world_wf_explodeTNT world_wf_tickTNT : voxel.

(** Closes [world_wf] of the world of an example game. *)
Ltac example_wf :=
  cbn [world tntGame stoneAheadGame fullInventoryGame buriedGame waterGame];
  auto with voxel.

(** Closes a goal that holds by evaluation. *)
Ltac by_evaluation := vm_compute; first [reflexivity | split; discriminate].

(** *** Closed instances for the world store *)

Lemma getBlock_outside_height_witness :
  (getBlock (H := sample_host) 5 64 (-3) ∅).1 = mkBlock air.
Proof.
  apply (getBlock_outside_height (H := sample_host) 5 64 (-3) ∅). lia.
Defined.

(** C1, as the spec states it, fails: on the empty chunk map the read of
    [(0, -1, 0)] does not leave the chunk map unchanged, it stores the
    chunk [(0, 0)]. *)
Lemma getBlock_outside_height_materializes :
  ~ ((getBlock (H := sample_host) 0 (-1) 0 ∅).1 = mkBlock air /\
     (getBlock (H := sample_host) 0 (-1) 0 ∅).2 = ∅).
Proof.
  intros [_ Hw]. rewrite getBlock_snd in Hw.
  unfold ensureChunk in Hw. rewrite lookup_empty in Hw.
  by apply insert_non_empty in Hw.
Qed.

Lemma setBlock_getBlock_roundtrip_witness :
  (getBlock (H := sample_host) (-1) 40 17
     (setBlock (H := sample_host) (-1) 40 17 (mkBlock glass) ∅)).1 = mkBlock glass.
Proof.
  apply (setBlock_getBlock_roundtrip (H := sample_host) (-1) 40 17 (mkBlock glass) ∅).
  - auto with voxel.
  - lia.
Defined.

(** *** Closed instances for the inventory, the interactions and the TNT *)

Lemma inventory_invariant_witness :
  inventory_ok
    (inventory
       (run (H := sample_host)
            [Break 0.5 0.5; Place; Elsewhere ∅ [] (standingPlayer 8 3 creative); Place]
            (mkGame ∅ [] (startInventory creative) (standingPlayer 8 0 creative)))).
Proof.
  apply (inventory_invariant (H := sample_host)).
  apply startInventory_ok.
Defined.

Lemma explodeTNT_radius_witness :
  blockAt (H := sample_host)
    (world (explodeTNT (H := sample_host) sampleBlast sampleSpark 8.5 45.5 8.5 tntGame))
    9 45 8 = mkBlock air.
Proof.
  pose proof (explodeTNT_radius (H := sample_host) sampleBlast sampleSpark 8.5 45.5 8.5
                tntGame 9 45 8) as Hradius.
  destruct Hradius as [_ Hnear].
  - example_wf.
  - destruct Hnear as [Htnt _].
    + change (sqrt (IZR 1) <= 4)%R. rewrite sqrt_1. Lra.lra.
    + apply Htnt. by_evaluation.
Defined.

(** C4, as the spec states it, fails: the radius is not taken from the
    centre of the entity.  An entity explodes at [(8.9, 45.9, 8.5)], and
    every destruction test draws 0.99.  The centre of the voxel
    [(11, 48, 8)] is within 4 of the centre of the entity, and so are its
    lowest corner and its nearest point, and the stone there stays.  The
    centre of the voxel [(4, 45, 8)] is farther than 4 from it, and so are
    its lowest corner and its farthest point, and the stone there is
    destroyed. *)
Lemma explodeTNT_radius_not_from_entity_centre :
  let g' := explodeTNT (H := sample_host) sureBlast sampleSpark 8.9 45.9 8.5 blastGame in
  ((11.5 - 8.9) * (11.5 - 8.9) + (48.5 - 45.9) * (48.5 - 45.9) + (8.5 - 8.5) * (8.5 - 8.5)
     < 4 * 4)%Q /\
  (0.5 * 1 < sureBlast 3 3 0)%Q /\
  blockAt (H := sample_host) (world blastGame) 11 48 8 = mkBlock stone /\
  blockAt (H := sample_host) (world g') 11 48 8 = mkBlock stone /\
  (4 * 4 <
   (4.5 - 8.9) * (4.5 - 8.9) + (45.5 - 45.9) * (45.5 - 45.9) + (8.5 - 8.5) * (8.5 - 8.5))%Q /\
  blockAt (H := sample_host) (world blastGame) 4 45 8 = mkBlock stone /\
  blockAt (H := sample_host) (world g') 4 45 8 <>
  blockAt (H := sample_host) (world blastGame) 4 45 8.
Proof.
  cbv zeta.
  assert (Hfar : blockAt (H := sample_host)
                   (world (explodeTNT (H := sample_host) sureBlast sampleSpark
                                      8.9 45.9 8.5 blastGame)) 4 45 8 = mkBlock air)
    by (by_evaluation).
  do 6 (split; [by_evaluation|]).
  rewrite Hfar. vm_compute. discriminate.
Qed.

Lemma raycast_plus_x_reports_face_1_witness :
  exists h,
    (raycast (H := sample_host) 5 stoneAheadGame).1 = Some h /\
    (hit_x h, hit_y h, hit_z h) = (9, 45, 8) /\
    face h = 1%nat /\ faceOffsets !! face h = Some (1, 0, 0).
Proof.
  exists (mkHit 9 45 8 1).
  split; [by_evaluation|]. split; [reflexivity|].
  apply (raycast_plus_x_reports_face_1 (H := sample_host) stoneAheadGame (mkHit 9 45 8 1)).
  - by_evaluation.
  - by_evaluation.
  - by_evaluation.
  - by_evaluation.
  - by_evaluation.
Defined.

(** The placement that follows that hit: the planks land at [x = 10],
    behind the stone at [x = 9], and the voxel [x = 8] in front of it stays
    air. *)
Example placeBlock_stone_ahead_places_behind :
  type (blockAt (H := sample_host) (world (placeBlock (H := sample_host) stoneAheadGame)) 10 45 8)
    = planks /\
  type (blockAt (H := sample_host) (world (placeBlock (H := sample_host) stoneAheadGame)) 8 45 8)
    = air.
Proof. split; by_evaluation. Qed.

(** Over air the same entity keeps falling. *)
Example tickTNT_falls_through_air :
  (tickTNT (H := sample_host) sampleBlast sampleSpark fallingTNT tntGame).1 =
  Some (mkTNT (8.5 + 0.01) (45.3 + (0 - 0.02)) (8.5 + 0) 0.01 (0 - 0.02) 0 (80 - 1)).
Proof. by_evaluation. Qed.

Lemma tickTNT_lands_on_water_witness :
  (tickTNT (H := sample_host) sampleBlast sampleSpark fallingTNT waterGame).1 =
  Some (mkTNT (8.5 + 0.01) (inject_Z (Qfloor (45.3 + (0 - 0.02))) + 0.5) (8.5 + 0)
              (0.01 * 0.8) 0 (0 * 0.8) (80 - 1)).
Proof.
  apply (tickTNT_lands_on_water (H := sample_host) sampleBlast sampleSpark fallingTNT waterGame).
  - by_evaluation.
  - by_evaluation.
Defined.

Lemma breakBlock_ignites_tnt_witness :
  blockAt (H := sample_host)
    (world (breakBlock (H := sample_host) 0.25 0.75 tntGame)) 9 45 8 = mkBlock air /\
  tntEntities (breakBlock (H := sample_host) 0.25 0.75 tntGame) =
    tntEntities tntGame ++
      [mkTNT (inject_Z 9 + 0.5) (inject_Z 45 + 0.5) (inject_Z 8 + 0.5)
             ((0.25 - 0.5) * 0.02) 0.2 ((0.75 - 0.5) * 0.02) 80] /\
  inventory (breakBlock (H := sample_host) 0.25 0.75 tntGame) = inventory tntGame.
Proof.
  apply (breakBlock_ignites_tnt (H := sample_host) 0.25 0.75 tntGame (mkHit 9 45 8 1)).
  - example_wf.
  - by_evaluation.
  - by_evaluation.
Defined.

Lemma breakBlock_full_inventory_witness :
  blockAt (H := sample_host)
    (world (breakBlock (H := sample_host) 0.5 0.5 fullInventoryGame)) 9 45 8 = mkBlock air /\
  inventory (breakBlock (H := sample_host) 0.5 0.5 fullInventoryGame) =
  inventory fullInventoryGame.
Proof.
  assert (Hty : type (blockAt (H := sample_host) (world fullInventoryGame) 9 45 8) = stone)
    by (by_evaluation).
  apply (breakBlock_full_inventory (H := sample_host) 0.5 0.5 fullInventoryGame (mkHit 9 45 8 1)).
  - example_wf.
  - reflexivity.
  - by_evaluation.
  - cbn [hit_x hit_y hit_z]. rewrite Hty. discriminate.
  - cbn [hit_x hit_y hit_z]. rewrite Hty.
    intros s Hs. apply elem_of_replicate in Hs as [-> _]. simpl. intros [_ Hc]. lia.
  - intros s Hs. apply elem_of_replicate in Hs as [-> _]. discriminate.
Defined.

Lemma placeBlock_inside_player_box_witness :
  inventory (placeBlock (H := sample_host) buriedGame) = inventory buriedGame /\
  tntEntities (placeBlock (H := sample_host) buriedGame) = tntEntities buriedGame /\
  player (placeBlock (H := sample_host) buriedGame) = player buriedGame /\
  world buriedGame ⊆ world (placeBlock (H := sample_host) buriedGame) /\
  (forall key, is_Some (world buriedGame !! key) ->
     world (placeBlock (H := sample_host) buriedGame) !! key = world buriedGame !! key) /\
  (forall x y z,
     blockAt (H := sample_host) (world (placeBlock (H := sample_host) buriedGame)) x y z =
     blockAt (H := sample_host) (world buriedGame) x y z).
Proof.
  apply (placeBlock_inside_player_box (H := sample_host) buriedGame (mkHit 8 10 8 0) 0 0 0).
  - by_evaluation.
  - reflexivity.
  - by_evaluation.
  - by_evaluation.
  - by_evaluation.
Defined.

(** C9, as the spec states it, fails: the buried player's ray hits the
    voxel [(8, 10, 8)] at its first sample and reports the face 0, the
    target of the placement is that voxel, inside the player's box, and the
    call still changes the chunk map, which gains the chunk [(0, 0)]. *)
Lemma placeBlock_inside_player_box_loads_chunk :
  (raycast (H := sample_host) 5 buriedGame).1 = Some (mkHit 8 10 8 0) /\
  faceOffsets !! 0%nat = Some (0, 0, 0) /\
  (Qfloor (8.5 - 0.3) <= 8 + 0 <= Qfloor (8.5 + 0.3)) /\
  (Qfloor (10.5 - 1.8) <= 10 + 0 <= Qfloor (10.5 + 0.2)) /\
  (Qfloor (8.5 - 0.3) <= 8 + 0 <= Qfloor (8.5 + 0.3)) /\
  world (placeBlock (H := sample_host) buriedGame) <> world buriedGame.
Proof.
  assert (Hhit : (raycast (H := sample_host) 5 buriedGame).1 = Some (mkHit 8 10 8 0))
    by (by_evaluation).
  split; [exact Hhit|]. split; [reflexivity|].
  split; [by_evaluation|].
  split; [by_evaluation|].
  split; [by_evaluation|].
  rewrite (placeBlock_guarded (H := sample_host) buriedGame (mkHit 8 10 8 0) 0 0 0);
    [|exact Hhit|reflexivity|by_evaluation..].
  intros Hw.
  assert (Hk : world buriedGame !! (0, 0) = None) by apply lookup_empty.
  rewrite <- Hw in Hk. revert Hk. vm_compute. discriminate.
Qed.


(** * Further properties

    Properties of the rest of the code, read off the source. *)

(** ** The world store *)

Section WorldStoreMore.
Context `{Host}.

Lemma ensureChunk_idemp key world :
  ensureChunk key (ensureChunk key world) = ensureChunk key world.
Proof.
  unfold ensureChunk at 1. by rewrite ensureChunk_lookup.
Qed.

Lemma chunkWrite_overwrite x y z b1 b2 c :
  chunkWrite x y z b2 (chunkWrite x y z b1 c) = chunkWrite x y z b2 c.
Proof.
  unfold chunkWrite. case_bool_decide; [|done].
  rewrite list_alter_alter_eq. apply list_alter_ext; [|done].
  intros col _. cbn [compose]. rewrite list_alter_alter_eq.
  apply list_alter_ext; [|done].
  intros row _. cbn [compose]. apply list_insert_insert_eq.
Qed.

Lemma blockAt_setBlock_outside x y z b world x' y' z' :
  y < 0 \/ 64 <= y ->
  blockAt (setBlock x y z b world) x' y' z' = blockAt world x' y' z'.
Proof.
  intros Hy. rewrite setBlock_unfold. unfold WORLD_HEIGHT.
  replace ((0 <=? y) && (y <? 64)) with false by lia.
  apply (lazyExtension_blockAt world), lazyExtension_ensureChunk.
Qed.

(** X1.  [setBlock(x, y, z, b)] changes no voxel but [(x, y, z)], and no
    voxel at all when [y] is outside [0,64). *)
Theorem setBlock_changes_one_voxel (x y z : Z) (b : Block)
    (world : gmap (Z * Z) Chunk) (x' y' z' : Z) :
  (x', y', z') <> (x, y, z) \/ y < 0 \/ 64 <= y ->
  (getBlock x' y' z' (setBlock x y z b world)).1 = (getBlock x' y' z' world).1.
Proof.
  intros [Hne|Hy].
  - by apply getBlock_after_setBlock_ne.
  - by apply blockAt_setBlock_outside.
Qed.

(** X2.  A read is paid once: the second [getBlock] of a voxel returns the
    same block and leaves the chunk map as the first one left it.  The
    first one keeps every chunk of the map and leaves the chunk of the
    voxel in it. *)
Theorem getBlock_twice (x y z : Z) (world : gmap (Z * Z) Chunk) :
  getBlock x y z (getBlock x y z world).2 = getBlock x y z world /\
  world ⊆ (getBlock x y z world).2 /\
  is_Some ((getBlock x y z world).2 !! getChunkKey (chunkCoord x) (chunkCoord z)).
Proof.
  split; [|split].
  - rewrite (getBlock_unfold x y z (getBlock x y z world).2).
    rewrite getBlock_snd, chunkAt_ensureChunk, ensureChunk_idemp.
    by rewrite getBlock_unfold.
  - rewrite getBlock_snd. apply ensureChunk_subseteq.
  - rewrite getBlock_snd. unfold getChunkKey. rewrite ensureChunk_lookup. eauto.
Qed.

(** X3.  Of two writes to the same voxel the second wins: the chunk map
    is the one the second write alone leaves. *)
Theorem setBlock_overwrite (x y z : Z) (b1 b2 : Block) (world : gmap (Z * Z) Chunk) :
  setBlock x y z b2 (setBlock x y z b1 world) = setBlock x y z b2 world.
Proof.
  rewrite (setBlock_unfold x y z b2 (setBlock x y z b1 world)).
  rewrite (setBlock_unfold x y z b1 world), (setBlock_unfold x y z b2 world).
  destruct ((0 <=? y) && (y <? WORLD_HEIGHT)).
  - unfold chunkAt at 1. rewrite lookup_insert_eq. cbn [default from_option].
    unfold Datatypes.id.
    rewrite insert_insert_eq. by rewrite chunkWrite_overwrite.
  - apply ensureChunk_idemp.
Qed.

End WorldStoreMore.

Lemma setBlock_changes_one_voxel_witness :
  (getBlock (H := sample_host) 9 45 9
     (setBlock (H := sample_host) 9 45 8 (mkBlock brick) ∅)).1 =
  (getBlock (H := sample_host) 9 45 9 ∅).1.
Proof.
  apply (setBlock_changes_one_voxel (H := sample_host) 9 45 8 (mkBlock brick) ∅ 9 45 9).
  left. discriminate.
Defined.

(** ** The pick ray, again *)

Section PickRayMore.
Context `{Host}.

Let sampleAt (p : Player) (dirX dirY dirZ : Q) (i : Z) : Z * Z * Z :=
  (Qfloor (player_x p + dirX * (inject_Z i * 0.1)),
   Qfloor (player_y p + dirY * (inject_Z i * 0.1)),
   Qfloor (player_z p + dirZ * (inject_Z i * 0.1))).

Let solidAt (p : Player) (dirX dirY dirZ : Q) (world : gmap (Z * Z) Chunk) (i : Z) : bool :=
  isSolid (blockAt world (sampleAt p dirX dirY dirZ i).1.1
                         (sampleAt p dirX dirY dirZ i).1.2
                         (sampleAt p dirX dirY dirZ i).2).

Lemma seqZ_to_nat (m n : Z) : seqZ m n = seqZ m (Z.of_nat (Z.to_nat n)).
Proof. unfold seqZ. by rewrite Nat2Z.id. Qed.

(** The loop stops at the first step whose sample is solid; a hit with the
    face 0 was found at the step before which the ray did not leave the
    voxel. *)
Lemma raycastLoop_first p dirX dirY dirZ (m : nat) :
  forall (i0 : Z) world,
    match (raycastLoop p dirX dirY dirZ (seqZ i0 (Z.of_nat m)) world).1 with
    | Some h =>
      exists i, i0 <= i < i0 + Z.of_nat m /\
        (hit_x h, hit_y h, hit_z h) = sampleAt p dirX dirY dirZ i /\
        solidAt p dirX dirY dirZ world i = true /\
        (forall j, i0 <= j < i -> solidAt p dirX dirY dirZ world j = false) /\
        (face h = 0%nat ->
           Qfloor (player_x p + dirX * (inject_Z i * 0.1 - 0.1)) = hit_x h /\
           Qfloor (player_y p + dirY * (inject_Z i * 0.1 - 0.1)) = hit_y h /\
           Qfloor (player_z p + dirZ * (inject_Z i * 0.1 - 0.1)) = hit_z h)
    | None => forall j, i0 <= j < i0 + Z.of_nat m -> solidAt p dirX dirY dirZ world j = false
    end.
Proof.
  induction m as [|m IH]; intros i0 world.
  - cbn. intros j Hj. lia.
  - rewrite seqZ_cons by lia.
    replace (Z.pred (Z.of_nat (S m))) with (Z.of_nat m) by lia.
    rewrite raycastLoop_cons. cbv zeta.
    set (x := Qfloor (player_x p + dirX * (inject_Z i0 * 0.1))).
    set (y := Qfloor (player_y p + dirY * (inject_Z i0 * 0.1))).
    set (z := Qfloor (player_z p + dirZ * (inject_Z i0 * 0.1))).
    set (prevX := Qfloor (player_x p + dirX * (inject_Z i0 * 0.1 - 0.1))).
    set (prevY := Qfloor (player_y p + dirY * (inject_Z i0 * 0.1 - 0.1))).
    set (prevZ := Qfloor (player_z p + dirZ * (inject_Z i0 * 0.1 - 0.1))).
    destruct (isSolid (blockAt world x y z)) eqn:Es.
    + unfold fst. exists i0. split; [lia|]. split; [done|].
      split; [exact Es|]. split; [intros j Hj; lia|].
      unfold face, hit_x, hit_y, hit_z.
      destruct (Z.eqb_spec prevX x) as [Ex|Ex]; cbn [negb].
      2:{ destruct (Qltb 0 dirX); discriminate. }
      destruct (Z.eqb_spec prevY y) as [Ey|Ey]; cbn [negb].
      2:{ destruct (Qltb 0 dirY); discriminate. }
      destruct (Z.eqb_spec prevZ z) as [Ez|Ez]; cbn [negb].
      2:{ destruct (Qltb 0 dirZ); discriminate. }
      done.
    + specialize (IH (Z.succ i0) (getBlock x y z world).2).
      pose proof (lazyExtension_getBlock x y z world) as Hl.
      assert (Hsame : forall j, solidAt p dirX dirY dirZ (getBlock x y z world).2 j =
                                solidAt p dirX dirY dirZ world j).
      { intros j. unfold solidAt. by rewrite (lazyExtension_blockAt world). }
      destruct (raycastLoop p dirX dirY dirZ (seqZ (Z.succ i0) (Z.of_nat m))
                  (getBlock x y z world).2).1 as [h|].
      * destruct IH as (i & Hi & Hv & Hs & Hbefore & Hface).
        exists i. split; [lia|]. split; [done|].
        split; [by rewrite <- Hsame|]. split; [|done].
        intros j Hj. destruct (decide (j = i0)) as [->|Hne].
        -- exact Es.
        -- rewrite <- Hsame. apply Hbefore. lia.
      * intros j Hj. destruct (decide (j = i0)) as [->|Hne].
        -- exact Es.
        -- rewrite <- Hsame. apply IH. lia.
Qed.

Lemma raySample_unfold p i :
  raySample p i =
  sampleAt p (viewDirection p).1.1 (viewDirection p).1.2 (viewDirection p).2 i.
Proof. unfold raySample. by destruct (viewDirection p) as [[dx dy] dz]. Qed.

(** X4.  [raycast] returns the first solid sample: a hit is the voxel of
    the sample of some step [i] below [maxDist / 0.1], that voxel is
    neither air nor water, and the samples of all earlier steps are air or
    water; [null] means that the samples of all steps are. *)
Theorem raycast_first_solid (maxDist : Q) (g : Game) :
  let n := Qceiling (maxDist / 0.1) in
  let solid := fun i : Z =>
    isSolid (blockAt (world g) (raySample (player g) i).1.1
                     (raySample (player g) i).1.2 (raySample (player g) i).2) in
  match (raycast maxDist g).1 with
  | Some h =>
    exists i, 0 <= i < n /\
      (hit_x h, hit_y h, hit_z h) = raySample (player g) i /\
      solid i = true /\
      forall j, 0 <= j < i -> solid j = false
  | None => forall i, 0 <= i < n -> solid i = false
  end.
Proof.
  cbv zeta. rewrite raycast_unfold. cbv zeta. unfold fst at 1.
  rewrite seqZ_to_nat.
  pose proof (raycastLoop_first (player g) (viewDirection (player g)).1.1
                (viewDirection (player g)).1.2 (viewDirection (player g)).2
                (Z.to_nat (Qceiling (maxDist / 0.1))) 0 (world g)) as Hloop.
  destruct (raycastLoop _ _ _ _ _ _).1 as [h|].
  - destruct Hloop as (i & Hi & Hv & Hs & Hbefore & _).
    exists i. split; [lia|]. rewrite raySample_unfold. split; [done|].
    split; [exact Hs|].
    intros j Hj. rewrite raySample_unfold. by apply Hbefore.
  - intros i Hi. rewrite raySample_unfold. apply Hloop. lia.
Qed.

(** X5.  [raycast] only reads: every chunk of the map is kept, every voxel
    reads as before, and the entities, the inventory and the player are
    unchanged. *)
Theorem raycast_reads_only (maxDist : Q) (g : Game) :
  world g ⊆ world (raycast maxDist g).2 /\
  (forall x y z,
     blockAt (world (raycast maxDist g).2) x y z = blockAt (world g) x y z) /\
  tntEntities (raycast maxDist g).2 = tntEntities g /\
  inventory (raycast maxDist g).2 = inventory g /\
  player (raycast maxDist g).2 = player g.
Proof.
  pose proof (raycast_spec maxDist g) as (Hl & Ht & Hi & Hp & _). cbv zeta in *.
  split; [apply Hl|]. split; [|done].
  intros x y z. by apply lazyExtension_blockAt.
Qed.

End PickRayMore.

(** ** Breaking and placing, again *)

Section InteractionMore.
Context `{Host}.

(** What a slot counts for a kind. *)
Let weight (ty : BlockType) (s : InventorySlot) : Z :=
  if decide (slot_type s = Some ty) then count s else 0.

Lemma countOf_alter ty f i inv s :
  inv !! i = Some s ->
  countOf ty (alter f i inv) = countOf ty inv - weight ty s + weight ty (f s).
Proof.
  revert i. induction inv as [|s0 inv IH]; intros i Hi; [done|].
  destruct i as [|i].
  - injection Hi as ->. cbn [alter list_alter countOf foldr]. unfold weight. lia.
  - cbn [alter list_alter]. change (inv !! i = Some s) in Hi.
    change (countOf ty (s0 :: alter f i inv)) with
      ((if decide (slot_type s0 = Some ty) then count s0 else 0) + countOf ty (alter f i inv)).
    change (countOf ty (s0 :: inv)) with
      ((if decide (slot_type s0 = Some ty) then count s0 else 0) + countOf ty inv).
    rewrite (IH i Hi). lia.
Qed.

(** The inventory after a pick-up that finds a slot. *)
Lemma pickUp_count ty inv :
  (exists s, s ∈ inv /\ ((slot_type s = Some ty /\ count s < 64) \/ slot_type s = None)) ->
  countOf ty (pickUp ty inv) = countOf ty inv + 1 /\
  (forall ty', ty' <> ty -> countOf ty' (pickUp ty inv) = countOf ty' inv).
Proof.
  intros (s & Hs & Hroom). unfold pickUp.
  destruct (list_find (fun s => slot_type s = Some ty /\ count s < 64) inv)
    as [[i s1]|] eqn:E1.
  - apply list_find_Some in E1 as (Hi & [Hty Hc] & _). split.
    + rewrite (countOf_alter ty _ i inv s1 Hi). unfold weight. cbn [slot_type count].
      rewrite !decide_True by done. lia.
    + intros ty' Hne. rewrite (countOf_alter ty' _ i inv s1 Hi).
      unfold weight. cbn [slot_type count].
      rewrite !decide_False by congruence. lia.
  - destruct (list_find (fun s => slot_type s = None) inv) as [[i s2]|] eqn:E2.
    + apply list_find_Some in E2 as (Hi & Hnone & _). split.
      * rewrite (countOf_alter ty _ i inv s2 Hi). unfold weight. cbn [slot_type count].
        rewrite decide_False by congruence. rewrite decide_True by done. lia.
      * intros ty' Hne. rewrite (countOf_alter ty' _ i inv s2 Hi).
        unfold weight. cbn [slot_type count].
        rewrite !decide_False by congruence. lia.
    + exfalso. apply list_find_None in E1, E2.
      rewrite Forall_forall in E1, E2.
      destruct Hroom as [Hr|Hr]; [by apply (E1 s Hs)|by apply (E2 s Hs)].
Qed.

(** X6.  [breakBlock] changes at most one voxel: with a hit, the voxel hit
    reads air afterwards and every other voxel reads as before; without,
    nothing reads differently and the inventory and the entities are
    unchanged. *)
Theorem breakBlock_changes_one_voxel (draw1 draw2 : Q) (g : Game) :
  world_wf (world g) ->
  let g' := breakBlock draw1 draw2 g in
  match (raycast 5 g).1 with
  | Some h =>
    blockAt (world g') (hit_x h) (hit_y h) (hit_z h) = mkBlock air /\
    forall x y z, (x, y, z) <> (hit_x h, hit_y h, hit_z h) ->
      blockAt (world g') x y z = blockAt (world g) x y z
  | None =>
    (forall x y z, blockAt (world g') x y z = blockAt (world g) x y z) /\
    inventory g' = inventory g /\ tntEntities g' = tntEntities g
  end.
Proof.
  intros Hwf g'. subst g'.
  destruct (raycast 5 g).1 as [h|] eqn:Hhit.
  - destruct (breakBlock_hit draw1 draw2 g h Hhit) as (w & Hl & ->). cbv zeta.
    pose proof (raycast_spec 5 g) as (_ & _ & _ & _ & Hsolid). cbv zeta in Hsolid.
    destruct (Hsolid h Hhit) as [Hs _].
    assert (Hy : 0 <= hit_y h < 64).
    { apply (blockAt_not_air_height (world g) (hit_x h) _ (hit_z h)).
      unfold isSolid in Hs. apply andb_true_iff in Hs as [Hs _].
      by apply negb_true_iff, bool_decide_eq_false in Hs. }
    assert (Hwf' : world_wf w) by (by apply (lazyExtension_wf (world g))).
    assert (Hgoal :
      blockAt (setBlock (hit_x h) (hit_y h) (hit_z h) (mkBlock air) w)
              (hit_x h) (hit_y h) (hit_z h) = mkBlock air /\
      forall x y z, (x, y, z) <> (hit_x h, hit_y h, hit_z h) ->
        blockAt (setBlock (hit_x h) (hit_y h) (hit_z h) (mkBlock air) w) x y z =
        blockAt (world g) x y z).
    { split; [by apply blockAt_setBlock_eq|].
      intros x y z Hne. rewrite blockAt_setBlock_ne by done.
      by apply lazyExtension_blockAt. }
    destruct (decide _); [exact Hgoal|].
    destruct (mode (player g)); exact Hgoal.
  - pose proof (raycast_spec 5 g) as (Hl & Ht & Hi & _). cbv zeta in *.
    unfold breakBlock. destruct (raycast 5 g) as [hit g1].
    cbn [fst snd] in *. subst hit.
    split; [|done]. intros x y z. by apply lazyExtension_blockAt.
Qed.

(** X7.  In survival mode a break of a block that is not tnt, with a slot
    of its kind below 64 or an empty slot in the inventory, adds exactly
    one item of that kind and changes the number of items of no other
    kind. *)
Theorem breakBlock_picks_up_one (draw1 draw2 : Q) (g : Game) (h : Hit) :
  mode (player g) = survival ->
  (raycast 5 g).1 = Some h ->
  let ty := type (blockAt (world g) (hit_x h) (hit_y h) (hit_z h)) in
  ty <> tnt ->
  (exists s, s ∈ inventory g /\
     ((slot_type s = Some ty /\ count s < 64) \/ slot_type s = None)) ->
  let g' := breakBlock draw1 draw2 g in
  countOf ty (inventory g') = countOf ty (inventory g) + 1 /\
  (forall ty', ty' <> ty -> countOf ty' (inventory g') = countOf ty' (inventory g)).
Proof.
  intros Hmode Hhit ty Hty Hroom g'. subst g'.
  destruct (breakBlock_hit draw1 draw2 g h Hhit) as (w & Hl & ->). cbv zeta.
  fold ty. rewrite decide_False by done. rewrite Hmode.
  cbn [inventory withInventory]. by apply pickUp_count.
Qed.

(** The two ways [placeBlock] ends: the game as the ray left it, or one
    block written outside the player's box. *)
Lemma placeBlock_cases g :
  placeBlock g = (raycast 5 g).2 \/
  exists h slot ty ox oy oz,
    (raycast 5 g).1 = Some h /\
    inventory g !! selectedSlot (player g) = Some slot /\
    slot_type slot = Some ty /\ 0 < count slot /\
    faceOffsets !! face h = Some (ox, oy, oz) /\
    ~ inPlayerBox (player g) (hit_x h + ox) (hit_y h + oy) (hit_z h + oz) /\
    placeBlock g =
    mkGame (setBlock (hit_x h + ox) (hit_y h + oy) (hit_z h + oz) (mkBlock ty)
                     (world (raycast 5 g).2))
           (tntEntities g)
           (match mode (player g) with
            | survival => alter takeOne (selectedSlot (player g)) (inventory g)
            | creative => inventory g
            end)
           (player g).
Proof.
  unfold placeBlock.
  pose proof (raycast_spec 5 g) as (_ & Ht & Hi & Hp & _). cbv zeta in *.
  destruct (raycast 5 g) as [hit g1]. cbn [fst snd] in *.
  destruct g1 as [w1 ts1 inv1 p1]. cbn [tntEntities inventory player world] in *.
  subst ts1 inv1 p1. unfold withWorld, withInventory.
  cbn [tntEntities inventory player world].
  destruct hit as [h|]; [|by left].
  destruct (inventory g !! selectedSlot (player g)) as [slot|] eqn:Es; [|by left].
  destruct (slot_type slot) as [ty|] eqn:Ety; [|by left].
  destruct (0 <? count slot) eqn:Ec; [|by left].
  destruct (faceOffsets !! face h) as [[[ox oy] oz]|] eqn:Eo; [|by left].
  match goal with |- context [if ?b then _ else _] => destruct b eqn:Eg end;
    [|by left].
  right. exists h, slot, ty, ox, oy, oz.
  repeat (split; [done || lia|]).
  split.
  - unfold inPlayerBox. intros (Hx & Hy & Hz). lia.
  - by destruct (mode (player g)).
Qed.

Lemma faceOffsets_zero (n : nat) : faceOffsets !! n = Some (0, 0, 0) -> n = 0%nat.
Proof.
  do 7 (destruct n as [|n]; [first [done|discriminate]|]).
  discriminate.
Qed.

(** X8.  [placeBlock] writes no voxel of the player's floored box:
    whatever the ray hits and whatever the slot holds, every voxel of the
    box reads as before. *)
Theorem placeBlock_never_in_player_box (g : Game) (x y z : Z) :
  inPlayerBox (player g) x y z ->
  blockAt (world (placeBlock g)) x y z = blockAt (world g) x y z.
Proof.
  intros Hbox.
  pose proof (raycast_spec 5 g) as (Hl & _). cbv zeta in Hl.
  destruct (placeBlock_cases g) as [->|(h & slot & ty & ox & oy & oz & _ & _ & _ & _ & _ & Hout & ->)].
  - by apply lazyExtension_blockAt.
  - cbn [world]. rewrite blockAt_setBlock_ne.
    + by apply lazyExtension_blockAt.
    + intros E. injection E as -> -> ->. by apply Hout.
Qed.

(** X9.  [placeBlock] replaces the block the ray hit only when the ray
    reports the face 0, whose offset is [(0, 0, 0)]: with any other face
    the voxel of the hit reads as before. *)
Theorem placeBlock_keeps_hit_voxel (g : Game) (h : Hit) :
  (raycast 5 g).1 = Some h ->
  face h <> 0%nat ->
  blockAt (world (placeBlock g)) (hit_x h) (hit_y h) (hit_z h) =
  blockAt (world g) (hit_x h) (hit_y h) (hit_z h).
Proof.
  intros Hhit Hface.
  pose proof (raycast_spec 5 g) as (Hl & _). cbv zeta in Hl.
  destruct (placeBlock_cases g)
    as [->|(h' & slot & ty & ox & oy & oz & Hhit' & _ & _ & _ & Hoff & _ & ->)].
  - by apply lazyExtension_blockAt.
  - rewrite Hhit in Hhit'. injection Hhit' as <-.
    cbn [world]. rewrite blockAt_setBlock_ne.
    + by apply lazyExtension_blockAt.
    + intros E. injection E as Ex Ey Ez. apply Hface.
      apply faceOffsets_zero. rewrite Hoff. do 2 f_equal; [f_equal|]; lia.
Qed.

(** X10.  A placement that goes through: when the ray hits, the selected
    slot holds [count > 0] items of a kind, and the target, the voxel hit
    plus the offset of its face, lies outside the player's box and inside
    the height of the world, the target reads that kind afterwards and
    every other voxel reads as before.  In survival mode the inventory
    then holds one item of the kind less, in creative mode it is
    unchanged. *)
Theorem placeBlock_places (g : Game) (h : Hit) (slot : InventorySlot)
    (ty : BlockType) (ox oy oz : Z) :
  world_wf (world g) ->
  (raycast 5 g).1 = Some h ->
  inventory g !! selectedSlot (player g) = Some slot ->
  slot_type slot = Some ty -> 0 < count slot ->
  faceOffsets !! face h = Some (ox, oy, oz) ->
  ~ inPlayerBox (player g) (hit_x h + ox) (hit_y h + oy) (hit_z h + oz) ->
  0 <= hit_y h + oy < 64 ->
  let g' := placeBlock g in
  blockAt (world g') (hit_x h + ox) (hit_y h + oy) (hit_z h + oz) = mkBlock ty /\
  (forall x y z, (x, y, z) <> (hit_x h + ox, hit_y h + oy, hit_z h + oz) ->
     blockAt (world g') x y z = blockAt (world g) x y z) /\
  (mode (player g) = survival ->
     countOf ty (inventory g') = countOf ty (inventory g) - 1) /\
  (mode (player g) = creative -> inventory g' = inventory g).
Proof.
  intros Hwf Hhit Hslot Hty Hcount Hoff Hout Hy g'. subst g'.
  pose proof (raycast_spec 5 g) as (Hl & _ & Hi & Hp & _). cbv zeta in *.
  unfold placeBlock.
  destruct (raycast 5 g) as [hit g1]. cbn [fst snd] in *. subst hit.
  rewrite Hp, Hi, Hslot, Hty, Hoff.
  replace (0 <? count slot) with true by lia.
  match goal with |- context [if ?b then _ else _] => destruct b eqn:Eg end.
  2:{ exfalso. apply Hout. unfold inPlayerBox. lia. }
  assert (Hwf1 : world_wf (world g1)) by (by apply (lazyExtension_wf (world g))).
  assert (Hworld :
    blockAt (setBlock (hit_x h + ox) (hit_y h + oy) (hit_z h + oz) (mkBlock ty) (world g1))
            (hit_x h + ox) (hit_y h + oy) (hit_z h + oz) = mkBlock ty /\
    forall x y z, (x, y, z) <> (hit_x h + ox, hit_y h + oy, hit_z h + oz) ->
      blockAt (setBlock (hit_x h + ox) (hit_y h + oy) (hit_z h + oz) (mkBlock ty) (world g1))
              x y z = blockAt (world g) x y z).
  { split; [by apply blockAt_setBlock_eq|].
    intros x y z Hne. rewrite blockAt_setBlock_ne by done.
    by apply lazyExtension_blockAt. }
  destruct Hworld as [Hw1 Hw2].
  destruct (mode (player g)) eqn:Hmode;
    cbn [world inventory withWorld withInventory];
    (split; [exact Hw1|]); (split; [exact Hw2|]); (split; [|done]); [|done].
  intros _. rewrite Hi. rewrite (countOf_alter ty _ _ _ slot Hslot).
  unfold weight, takeOne. cbn [slot_type count]. rewrite Hty.
  rewrite decide_True by done.
  destruct (Z.eqb_spec (count slot - 1) 0) as [E|E].
  - rewrite decide_False by done. lia.
  - rewrite decide_True by done. lia.
Qed.


End InteractionMore.

(** ** The inventory, again *)

Section InventoryMore.
Context `{Host}.

(** The click on a block of the creative menu keeps the invariant of the
    slots. *)
Lemma giveBlock_ok (blockType : BlockType) (inv : list InventorySlot) :
  inventory_ok inv -> inventory_ok (giveBlock blockType inv).
Proof.
  intros Hok. unfold giveBlock.
  destruct (list_find _ inv) as [[i s]|]; [|done].
  apply Forall_alter; [exact Hok|].
  intros s' _ _. split; cbn [slot_type count]; [|lia]. split; [done|lia].
Qed.

(** X12.  The click on a block of the creative menu changes the first slot
    that is empty or holds the kind into a full slot of the kind and no
    other slot; without such a slot it changes nothing; and a second click
    on the same block changes nothing more. *)
Theorem giveBlock_fills_first_slot (blockType : BlockType) (inv : list InventorySlot) :
  match list_find (fun s => slot_type s = None \/ slot_type s = Some blockType) inv with
  | Some (i, _) =>
    giveBlock blockType inv !! i = Some (mkSlot (Some blockType) 64) /\
    forall j, j <> i -> giveBlock blockType inv !! j = inv !! j
  | None => giveBlock blockType inv = inv
  end /\
  giveBlock blockType (giveBlock blockType inv) = giveBlock blockType inv.
Proof.
  unfold giveBlock at 1 2 3.
  destruct (list_find (fun s => slot_type s = None \/ slot_type s = Some blockType) inv)
    as [[i s]|] eqn:E.
  - pose proof E as E'. apply list_find_Some in E' as (Hi & HP & Hmin).
    assert (Hfull : alter (fun _ => mkSlot (Some blockType) 64) i inv !! i =
                    Some (mkSlot (Some blockType) 64)).
    { by rewrite list_lookup_alter_eq, Hi. }
    split; [split|].
    + exact Hfull.
    + intros j Hj. by rewrite list_lookup_alter_ne.
    + unfold giveBlock at 2. rewrite E.
      assert (E2 : list_find (fun s => slot_type s = None \/ slot_type s = Some blockType)
                     (alter (fun _ => mkSlot (Some blockType) 64) i inv) =
                   Some (i, mkSlot (Some blockType) 64)).
      { apply list_find_Some. split; [exact Hfull|]. split; [by right|].
        intros j y Hj Hlt. rewrite list_lookup_alter_ne in Hj by lia.
        by apply (Hmin j). }
      unfold giveBlock. rewrite E2, E. rewrite list_alter_alter_eq.
      by apply list_alter_ext.
  - split; [done|]. unfold giveBlock at 2. rewrite E. unfold giveBlock. by rewrite E.
Qed.

End InventoryMore.

(** ** The explosion and the tick, again *)

Section ExplosionMore.
Context `{Host}.

Lemma explodeCell_fields blast spark x y z dx dy dz g :
  inventory (explodeCell blast spark x y z dx dy dz g) = inventory g /\
  player (explodeCell blast spark x y z dx dy dz g) = player g.
Proof.
  unfold explodeCell. cbv zeta.
  destruct (sqrt_le _ _); [|done].
  destruct (getBlock _ _ _ (world g)) as [b w].
  destruct (decide _); [done|]. by destruct (_ && _).
Qed.

(** The entities a list of cells appends are freshly ignited, and there is
    none when no cell finds tnt. *)
Lemma explodeCells_entities blast spark x y z (offsets : list (Z * Z * Z)) :
  NoDup offsets ->
  forall g, world_wf (world g) ->
  let g' := foldl (fun g o => explodeCell blast spark x y z o.1.1 o.1.2 o.2 g) g offsets in
  inventory g' = inventory g /\ player g' = player g /\
  exists new,
    tntEntities g' = tntEntities g ++ new /\
    Forall (fun e => tnt_fuse e = 80 /\ tnt_velY e = 0.2%Q) new /\
    ((forall dx dy dz, (dx, dy, dz) ∈ offsets ->
        sqrt_le (dx * dx + dy * dy + dz * dz) 4 = true ->
        type (blockAt (world g) (Qfloor x + dx) (Qfloor y + dy) (Qfloor z + dz)) <> tnt) ->
     new = []).
Proof.
  induction 1 as [|[[ox oy] oz] offsets Hnotin Hnodup IH]; intros g Hwf; cbn [foldl].
  - split; [done|]. split; [done|]. exists []. by rewrite app_nil_r.
  - cbn [fst snd].
    destruct (explodeCell_effect blast spark x y z ox oy oz g Hwf)
      as (Hwf1 & _ & Hother & Hents).
    destruct (explodeCell_fields blast spark x y z ox oy oz g) as [Hinv1 Hp1].
    set (g1 := explodeCell blast spark x y z ox oy oz g) in *.
    destruct (IH g1 Hwf1) as (Hinv & Hp & new & Hnew & Hall & Hnone).
    split; [by rewrite Hinv|]. split; [by rewrite Hp|].
    eexists. split; [rewrite Hnew, Hents; by rewrite <- app_assoc|].
    split.
    + apply Forall_app. split; [|exact Hall].
      destruct (_ && _); [|by constructor].
      constructor; [|by constructor]. by unfold ignited.
    + intros Hno.
      rewrite Hnone.
      * rewrite app_nil_r.
        destruct (sqrt_le (ox * ox + oy * oy + oz * oz) 4) eqn:Er; [|done].
        rewrite bool_decide_eq_false_2; [done|].
        apply (Hno ox oy oz); [|done]. apply elem_of_cons. by left.
      * intros dx dy dz Hin Hr.
        rewrite Hother.
        -- apply Hno; [|done]. apply elem_of_cons. by right.
        -- intros E. injection E as E1 E2 E3. apply Hnotin.
           replace ox with dx by lia. replace oy with dy by lia.
           replace oz with dz by lia. done.
Qed.

(** What the explosion leaves at a voxel. *)
Lemma explodeTNT_blockAt blast spark x y z g bx by_ bz :
  world_wf (world g) ->
  blockAt (world (explodeTNT blast spark x y z g)) bx by_ bz =
  blastResult blast (bx - Qfloor x) (by_ - Qfloor y) (bz - Qfloor z)
              (blockAt (world g) bx by_ bz).
Proof.
  intros Hwf.
  pose proof (explodeCells_effect blast spark x y z blastOffsets blastOffsets_NoDup g Hwf)
    as (_ & _ & Hcells).
  cbv zeta in Hcells. rewrite <- explodeTNT_flat in Hcells.
  specialize (Hcells (bx - Qfloor x) (by_ - Qfloor y) (bz - Qfloor z)).
  replace (Qfloor x + (bx - Qfloor x)) with bx in Hcells by lia.
  replace (Qfloor y + (by_ - Qfloor y)) with by_ in Hcells by lia.
  replace (Qfloor z + (bz - Qfloor z)) with bz in Hcells by lia.
  destruct Hcells as [Hout Hin].
  destruct (decide ((bx - Qfloor x, by_ - Qfloor y, bz - Qfloor z) ∈ blastOffsets))
    as [Hi|Hi].
  - apply Hin, Hi.
  - rewrite (Hout Hi). unfold blastResult. cbv zeta.
    destruct (sqrt_le _ 4) eqn:Er; [|done].
    exfalso. apply Hi. apply elem_of_blastOffsets.
    apply sqrt_le_16 in Er. clear -Er.
    generalize dependent (bx - Qfloor x). generalize dependent (by_ - Qfloor y).
    generalize dependent (bz - Qfloor z). intros dz dy dx Er. nia.
Qed.

(** X13.  After an explosion no voxel within the radius 4 of the voxel of
    its centre holds tnt. *)
Theorem explodeTNT_leaves_no_tnt blast spark (x y z : Q) (g : Game) (bx by_ bz : Z) :
  world_wf (world g) ->
  (bx - Qfloor x) * (bx - Qfloor x) + (by_ - Qfloor y) * (by_ - Qfloor y) +
    (bz - Qfloor z) * (bz - Qfloor z) <= 16 ->
  type (blockAt (world (explodeTNT blast spark x y z g)) bx by_ bz) <> tnt.
Proof.
  intros Hwf Hnear. rewrite explodeTNT_blockAt by done.
  unfold blastResult. cbv zeta.
  rewrite (proj2 (sqrt_le_16 _) Hnear).
  destruct (decide _); [done|]. by destruct (_ && _).
Qed.

(** X14.  An explosion only destroys: every voxel of the world reads as
    before it or reads air. *)
Theorem explodeTNT_only_destroys blast spark (x y z : Q) (g : Game) (bx by_ bz : Z) :
  world_wf (world g) ->
  blockAt (world (explodeTNT blast spark x y z g)) bx by_ bz = blockAt (world g) bx by_ bz \/
  blockAt (world (explodeTNT blast spark x y z g)) bx by_ bz = mkBlock air.
Proof.
  intros Hwf. rewrite explodeTNT_blockAt by done.
  unfold blastResult. cbv zeta.
  destruct (sqrt_le _ 4); [|by left].
  destruct (decide _); [by right|]. destruct (_ && _); [by right|by left].
Qed.

(** X15.  An explosion leaves the inventory and the player alone and only
    appends entities: each of them has the fuse 80 and the vertical
    velocity 0.2, and there is none when no voxel within the radius holds
    tnt. *)
Theorem explodeTNT_entities blast spark (x y z : Q) (g : Game) :
  world_wf (world g) ->
  let g' := explodeTNT blast spark x y z g in
  inventory g' = inventory g /\ player g' = player g /\
  exists new,
    tntEntities g' = tntEntities g ++ new /\
    Forall (fun e => tnt_fuse e = 80 /\ tnt_velY e = 0.2%Q) new /\
    ((forall bx by_ bz,
        (bx - Qfloor x) * (bx - Qfloor x) + (by_ - Qfloor y) * (by_ - Qfloor y) +
          (bz - Qfloor z) * (bz - Qfloor z) <= 16 ->
        type (blockAt (world g) bx by_ bz) <> tnt) ->
     new = []).
Proof.
  intros Hwf g'. subst g'. rewrite explodeTNT_flat.
  destruct (explodeCells_entities blast spark x y z blastOffsets blastOffsets_NoDup g Hwf)
    as (Hinv & Hp & new & Hnew & Hall & Hnone).
  split; [done|]. split; [done|]. exists new. split; [done|]. split; [done|].
  intros Hno. apply Hnone. intros dx dy dz _ Hr.
  apply Hno. apply sqrt_le_16 in Hr.
  replace (Qfloor x + dx - Qfloor x) with dx by lia.
  replace (Qfloor y + dy - Qfloor y) with dy by lia.
  replace (Qfloor z + dz - Qfloor z) with dz by lia. done.
Qed.

(** X16.  Draws above one half always destroy: when every draw of the
    destruction test exceeds 0.5, every voxel within the radius reads air
    after the explosion. *)
Theorem explodeTNT_high_draws_clear blast spark (x y z : Q) (g : Game) (bx by_ bz : Z) :
  world_wf (world g) ->
  (forall dx dy dz, (0.5 < blast dx dy dz)%Q) ->
  (bx - Qfloor x) * (bx - Qfloor x) + (by_ - Qfloor y) * (by_ - Qfloor y) +
    (bz - Qfloor z) * (bz - Qfloor z) <= 16 ->
  blockAt (world (explodeTNT blast spark x y z g)) bx by_ bz = mkBlock air.
Proof.
  intros Hwf Hdraw Hnear. rewrite explodeTNT_blockAt by done.
  unfold blastResult. cbv zeta.
  rewrite (proj2 (sqrt_le_16 _) Hnear).
  destruct (decide _) as [|Ht]; [done|].
  destruct (decide (type (blockAt (world g) bx by_ bz) = air)) as [Ea|Ea].
  { rewrite bool_decide_eq_true_2 by done. cbn [negb andb].
    destruct (blockAt (world g) bx by_ bz) as [ty]. cbn in Ea. by subst ty. }
  rewrite bool_decide_eq_false_2 by done. cbn [negb andb].
  set (dx := bx - Qfloor x) in *. set (dy := by_ - Qfloor y) in *.
  set (dz := bz - Qfloor z) in *.
  assert (Hex : random_exceeds (blast dx dy dz) (dx * dx + dy * dy + dz * dz) 4 = true);
    [|by rewrite Hex].
  unfold random_exceeds. cbv zeta.
  specialize (Hdraw dx dy dz).
  assert (Hq : (blast dx dy dz * 4 / 0.5 == blast dx dy dz * 8)%Q) by (field; done).
  apply andb_true_iff. rewrite !Qltb_lt. rewrite Hq.
  assert (Hn : (inject_Z (dx * dx + dy * dy + dz * dz) <= 16)%Q).
  { change 16%Q with (inject_Z 16). rewrite <- Zle_Qle. exact Hnear. }
  split; nra.
Qed.

Lemma tickTNT_armed_step blast spark entity g :
  1 < tnt_fuse entity ->
  exists e, (tickTNT blast spark entity g).1 = Some e /\
            tnt_fuse e = tnt_fuse entity - 1.
Proof.
  intros Hfuse. unfold tickTNT.
  replace (tnt_fuse entity - 1 <=? 0) with false by lia.
  destruct (getBlock _ _ _ (world g)) as [b w].
  destruct (negb _); eexists; (split; [reflexivity|done]).
Qed.

(** X17.  An entity whose fuse stays positive only reads the world: its
    tick returns the entity, changes what no voxel reads, and leaves the
    entities, the inventory and the player of the game as they are. *)
Theorem tickTNT_armed_reads_only blast spark (entity : TNTEntity) (g : Game) :
  1 < tnt_fuse entity ->
  let r := tickTNT blast spark entity g in
  (exists e, r.1 = Some e /\ tnt_fuse e = tnt_fuse entity - 1) /\
  world g ⊆ world r.2 /\
  (forall x y z, blockAt (world r.2) x y z = blockAt (world g) x y z) /\
  tntEntities r.2 = tntEntities g /\ inventory r.2 = inventory g /\ player r.2 = player g.
Proof.
  intros Hfuse r. subst r. unfold tickTNT.
  replace (tnt_fuse entity - 1 <=? 0) with false by lia.
  pose proof (lazyExtension_getBlock
    (Qfloor (tnt_x entity + tnt_velX entity))
    (Qfloor (tnt_y entity + (tnt_velY entity - 0.02) - 0.5))
    (Qfloor (tnt_z entity + tnt_velZ entity)) (world g)) as Hl.
  destruct (getBlock _ _ _ (world g)) as [b w]. cbn [snd] in Hl.
  assert (Hreads : forall x y z, blockAt w x y z = blockAt (world g) x y z)
    by (intros; by apply lazyExtension_blockAt).
  destruct (negb _); cbn [fst snd world tntEntities inventory player withWorld];
    (split; [eexists; split; [reflexivity|done]|]); (split; [apply Hl|done]).
Qed.

(** X18.  The fuse counts frames: over a list of frames an entity is gone,
    detonated, exactly when the list is not empty and at least as long as
    its fuse; until then its fuse has dropped by one a frame.  A freshly
    ignited entity, fuse 80, detonates in its 80th frame. *)
Theorem tickThrough_countdown
    (frames : list ((Z -> Z -> Z -> Q) * (Z -> Z -> Z -> Q * Q) * Game))
    (entity : TNTEntity) :
  match tickThrough frames entity with
  | Some e =>
    tnt_fuse e = tnt_fuse entity - Z.of_nat (length frames) /\
    (frames = [] \/ Z.of_nat (length frames) < tnt_fuse entity)
  | None => frames <> [] /\ tnt_fuse entity <= Z.of_nat (length frames)
  end.
Proof.
  revert entity. induction frames as [|[[blast spark] g] frames IH]; intros entity.
  - cbn. split; [lia|by left].
  - cbn [tickThrough length].
    destruct (Z_le_gt_dec (tnt_fuse entity) 1) as [Hle|Hgt].
    + unfold tickTNT. replace (tnt_fuse entity - 1 <=? 0) with true by lia.
      cbn [fst]. split; [done|lia].
    + destruct (tickTNT_armed_step blast spark entity g ltac:(lia)) as (e & -> & He).
      specialize (IH e).
      destruct (tickThrough frames e) as [e'|].
      * destruct IH as [Hf Hlen]. split; [lia|].
        right. destruct Hlen as [->|Hlen]; cbn [length]; lia.
      * destruct IH as [Hne Hlen]. split; [done|lia].
Qed.

End ExplosionMore.

(** ** The terrain *)

Section TerrainMore.
Context `{Host}.

Lemma foldl_invariant {A B} (P : A -> Prop) (f : A -> B -> A) (l : list B) (a : A) :
  P a -> (forall a b, b ∈ l -> P a -> P (f a b)) -> P (foldl f a l).
Proof.
  revert a. induction l as [|b l IH]; intros a Ha Hf; cbn [foldl]; [done|].
  apply IH.
  - apply Hf; [by left|done].
  - intros a' b' Hb'. apply Hf. by right.
Qed.

Lemma chunkRead_empty x y z : chunkRead x y z emptyChunk = mkBlock air.
Proof.
  unfold chunkRead, emptyChunk.
  destruct (replicate 16 _ !! Z.to_nat x) as [col|] eqn:Ec; [|done].
  apply lookup_replicate in Ec as [-> _]. cbn [mbind option_bind].
  destruct (replicate 64 _ !! Z.to_nat y) as [row|] eqn:Er; [|done].
  apply lookup_replicate in Er as [-> _]. cbn [mbind option_bind].
  destruct (replicate 16 _ !! Z.to_nat z) as [b|] eqn:Eb; [|done].
  by apply lookup_replicate in Eb as [-> _].
Qed.

(** A chunk whose voxels in a range of heights read as those of another. *)
Let sameLayers (lo hi : Z) (c c' : Chunk) : Prop :=
  forall x y z, 0 <= x -> 0 <= z -> lo <= y <= hi ->
    chunkRead x y z c' = chunkRead x y z c.

Lemma sameLayers_write lo hi x0 y0 z0 b c c' :
  0 <= lo -> y0 < lo \/ hi < y0 ->
  sameLayers lo hi c c' -> sameLayers lo hi c (chunkWrite x0 y0 z0 b c').
Proof.
  intros Hlo Hy Hs x y z Hx Hz Hr.
  rewrite chunkRead_write_ne; [by apply Hs|lia..|].
  intros E. injection E as -> -> ->. lia.
Qed.

(** The trunk, the canopy and the pool of a column are written at the
    terrain height or above, the column itself below it. *)
Lemma generateColumn_above cx cz x0 z0 c lo hi :
  0 <= lo -> hi < 21 ->
  let height := terrainHeight (cx * CHUNK_SIZE + x0) (cz * CHUNK_SIZE + z0) in
  let biome := terrainBiome (cx * CHUNK_SIZE + x0) (cz * CHUNK_SIZE + z0) in
  sameLayers lo hi
    (foldl (fun chunk y => chunkWrite x0 y z0 (columnLayer height biome y) chunk)
           c (seqZ 0 height))
    (generateColumn cx cz x0 z0 c).
Proof.
  intros Hlo Hhi height biome.
  pose proof (terrainHeight_range (cx * CHUNK_SIZE + x0) (cz * CHUNK_SIZE + z0)) as Hh.
  fold height in Hh.
  unfold generateColumn. cbv zeta. fold height biome.
  set (c1 := foldl _ c (seqZ 0 height)).
  assert (Hrefl : sameLayers lo hi c1 c1) by (by intros ? ? ? ? ? ?).
  assert (Htree : sameLayers lo hi c1
            (placeLeaves x0 z0 height
               (foldl (fun chunk y => chunkWrite x0 y z0 (mkBlock wood) chunk)
                      c1 (seqZ height 5)))).
  { unfold placeLeaves.
    apply (foldl_invariant (sameLayers lo hi c1)); [|intros c2 dx _ Hc2].
    2:{ apply (foldl_invariant (sameLayers lo hi c1)); [done|intros c3 dz _ Hc3].
        apply (foldl_invariant (sameLayers lo hi c1)); [done|intros c4 dy Hdy Hc4].
        apply elem_of_seqZ in Hdy.
        repeat case_match; try done.
        apply sameLayers_write; [done|lia|done]. }
    apply (foldl_invariant (sameLayers lo hi c1)); [done|intros c2 y Hy Hc2].
    apply elem_of_seqZ in Hy. apply sameLayers_write; [done|lia|done]. }
  repeat case_match; try done;
    repeat (apply sameLayers_write; [done|lia|]); done.
Qed.

(** The column loop writes [columnLayer] at each height below the terrain
    height. *)
Lemma fillColumn_read x0 z0 (f : Z -> Block) (l : list Z) :
  0 <= x0 < 16 -> 0 <= z0 < 16 ->
  NoDup l -> (forall y, y ∈ l -> 0 <= y < 64) ->
  forall c, chunk_wf c ->
  forall x y z, 0 <= x -> 0 <= y -> 0 <= z ->
    chunkRead x y z (foldl (fun chunk y => chunkWrite x0 y z0 (f y) chunk) c l) =
    if decide (x = x0 /\ z = z0 /\ y ∈ l) then f y else chunkRead x y z c.
Proof.
  intros Hx0 Hz0. induction 1 as [|y1 l Hnotin Hnodup IH]; intros Hrange c Hwf x y z Hx Hy Hz.
  - cbn [foldl]. rewrite decide_False; [done|]. intros (_ & _ & Hin). by apply elem_of_nil in Hin.
  - cbn [foldl]. rewrite IH; [|intros; apply Hrange; by right|by apply chunkWrite_wf|done..].
    destruct (decide (x = x0 /\ z = z0 /\ y ∈ l)) as [(-> & -> & Hin)|Hn].
    + rewrite decide_True; [done|]. repeat split; by right.
    + destruct (decide (x = x0 /\ z = z0 /\ y = y1)) as [(-> & -> & ->)|Hn1].
      * rewrite decide_True by (repeat split; by left).
        apply chunkRead_write_eq; [done..| |done].
        apply Hrange. by left.
      * rewrite decide_False.
        -- apply chunkRead_write_ne; [done..|]. intros E. injection E as -> -> ->. by apply Hn1.
        -- intros (-> & -> & Hin). apply elem_of_cons in Hin as [->|Hin].
           ++ by apply Hn1.
           ++ by apply Hn.
Qed.

(** The layers 0 to 16 after a column: stone in the column, as before
    elsewhere. *)
Lemma generateColumn_deep cx cz x0 z0 c :
  0 <= x0 < 16 -> 0 <= z0 < 16 -> chunk_wf c ->
  forall x y z, 0 <= x -> 0 <= z -> 0 <= y <= 16 ->
    chunkRead x y z (generateColumn cx cz x0 z0 c) =
    if decide ((x, z) = (x0, z0)) then mkBlock stone else chunkRead x y z c.
Proof.
  intros Hx0 Hz0 Hwf x y z Hx Hz Hy.
  pose proof (terrainHeight_range (cx * CHUNK_SIZE + x0) (cz * CHUNK_SIZE + z0)) as Hh.
  rewrite (generateColumn_above cx cz x0 z0 c 0 16) by (done || lia).
  rewrite fillColumn_read; [|done|done| | |done|done|lia|done].
  - destruct (decide (x = x0 /\ z = z0 /\ y ∈ seqZ 0 _)) as [(-> & -> & Hin)|Hn].
    + rewrite decide_True by done. unfold columnLayer.
      destruct (y =? 0); [done|].
      replace (y <? _ - 4) with true by lia. done.
    + destruct (decide ((x, z) = (x0, z0))) as [E|E]; [|done].
      injection E as -> ->. exfalso. apply Hn. repeat split.
      apply elem_of_seqZ. lia.
  - apply NoDup_seqZ.
  - intros y' Hy'. apply elem_of_seqZ in Hy'. lia.
Qed.

(** Every write of a column is below the height 50. *)
Lemma generateColumn_ceiling cx cz x0 z0 c c0 :
  (forall x y z, 0 <= x -> 0 <= z -> 50 <= y -> chunkRead x y z c = chunkRead x y z c0) ->
  forall x y z, 0 <= x -> 0 <= z -> 50 <= y ->
    chunkRead x y z (generateColumn cx cz x0 z0 c) = chunkRead x y z c0.
Proof.
  intros Hc.
  pose proof (terrainHeight_range (cx * CHUNK_SIZE + x0) (cz * CHUNK_SIZE + z0)) as Hh.
  set (P := fun c' : Chunk =>
    forall x y z, 0 <= x -> 0 <= z -> 50 <= y -> chunkRead x y z c' = chunkRead x y z c0).
  assert (Hw : forall xw yw zw b c', yw < 50 -> P c' -> P (chunkWrite xw yw zw b c')).
  { intros xw yw zw b c' Hyw Hc' x y z Hx Hz Hy.
    rewrite chunkRead_write_ne; [by apply Hc'|lia..|].
    intros E. injection E as -> -> ->. lia. }
  change (P (generateColumn cx cz x0 z0 c)). change (P c) in Hc.
  unfold generateColumn. cbv zeta.
  set (height := terrainHeight _ _) in *.
  assert (H1 : P (foldl (fun chunk y => chunkWrite x0 y z0
                          (columnLayer height (terrainBiome (cx * CHUNK_SIZE + x0)
                                                            (cz * CHUNK_SIZE + z0)) y) chunk)
                        c (seqZ 0 height))).
  { apply (foldl_invariant P); [done|]. intros c' y Hy Hc'.
    apply elem_of_seqZ in Hy. apply Hw; [lia|done]. }
  assert (H2 : forall c', P c' ->
            P (placeLeaves x0 z0 height
                 (foldl (fun chunk y => chunkWrite x0 y z0 (mkBlock wood) chunk)
                        c' (seqZ height 5)))).
  { intros c' Hc'. unfold placeLeaves.
    apply (foldl_invariant P); [|intros c2 dx _ Hc2].
    2:{ apply (foldl_invariant P); [done|intros c3 dz _ Hc3].
        apply (foldl_invariant P); [done|intros c4 dy Hdy Hc4].
        apply elem_of_seqZ in Hdy.
        repeat case_match; try done. apply Hw; [lia|done]. }
    apply (foldl_invariant P); [done|intros c2 y Hy Hc2].
    apply elem_of_seqZ in Hy. apply Hw; [lia|done]. }
  repeat case_match; repeat (apply Hw; [lia|]); auto.
Qed.

#[local] Transparent generateTerrain.

Lemma generateTerrain_columns cx cz :
  generateTerrain cx cz =
  foldl (fun chunk o => generateColumn cx cz o.1 o.2 chunk) emptyChunk
        (x ← seqZ 0 16; z ← seqZ 0 16; [(x, z)]).
Proof. unfold generateTerrain. rewrite foldl_bind_flat. reflexivity. Qed.

#[local] Opaque generateTerrain.

Lemma columns_deep cx cz (columns : list (Z * Z)) :
  (forall o, o ∈ columns -> 0 <= o.1 < 16 /\ 0 <= o.2 < 16) ->
  forall c, chunk_wf c ->
  let c' := foldl (fun chunk o => generateColumn cx cz o.1 o.2 chunk) c columns in
  chunk_wf c' /\
  forall x y z, 0 <= x -> 0 <= z -> 0 <= y <= 16 ->
    chunkRead x y z c' =
    if decide ((x, z) ∈ columns) then mkBlock stone else chunkRead x y z c.
Proof.
  induction columns as [|[x0 z0] columns IH]; intros Hrange c Hwf; cbn [foldl].
  - split; [done|]. intros x y z _ _ _. rewrite decide_False; [done|].
    intros Hin. by apply elem_of_nil in Hin.
  - cbn [fst snd].
    destruct (Hrange (x0, z0) ltac:(by left)) as [Hx0 Hz0]. cbn [fst snd] in Hx0, Hz0.
    destruct (IH ltac:(intros; apply Hrange; by right)
                 (generateColumn cx cz x0 z0 c) (generateColumn_wf cx cz x0 z0 c Hwf))
      as [Hwf' Hread].
    split; [done|]. intros x y z Hx Hz Hy. rewrite Hread by done.
    rewrite generateColumn_deep by done.
    destruct (decide ((x, z) ∈ columns)) as [Hin|Hn].
    + rewrite decide_True; [done|]. by right.
    + destruct (decide ((x, z) = (x0, z0))) as [->|Hne].
      * rewrite decide_True; [done|]. by left.
      * rewrite decide_False; [done|]. intros Hin.
        apply elem_of_cons in Hin as [|]; done.
Qed.

Lemma elem_of_columns x z :
  (x, z) ∈ (x ← seqZ 0 16; z ← seqZ 0 16; [(x, z)]) <-> 0 <= x < 16 /\ 0 <= z < 16.
Proof.
  rewrite list_elem_of_bind. split.
  - intros (x' & Hin & Hx). apply list_elem_of_bind in Hin as (z' & Hin & Hz).
    apply list_elem_of_singleton in Hin. injection Hin as -> ->.
    apply elem_of_seqZ in Hx, Hz. lia.
  - intros [Hx Hz]. exists x. split; [|apply elem_of_seqZ; lia].
    apply list_elem_of_bind. exists z. split; [|apply elem_of_seqZ; lia].
    by apply list_elem_of_singleton.
Qed.

Lemma generateTerrain_deep cx cz x y z :
  0 <= x < 16 -> 0 <= z < 16 -> 0 <= y <= 16 ->
  chunkRead x y z (generateTerrain cx cz) = mkBlock stone.
Proof.
  intros Hx Hz Hy. rewrite generateTerrain_columns.
  destruct (columns_deep cx cz (x ← seqZ 0 16; z ← seqZ 0 16; [(x, z)])
              ltac:(intros [x' z'] Hin; by apply elem_of_columns in Hin)
              emptyChunk chunk_wf_empty) as [_ Hread].
  rewrite Hread by lia. rewrite decide_True; [done|]. by apply elem_of_columns.
Qed.

Lemma generateTerrain_high cx cz x y z :
  0 <= x -> 0 <= z -> 50 <= y ->
  chunkRead x y z (generateTerrain cx cz) = mkBlock air.
Proof.
  intros Hx Hz Hy. rewrite generateTerrain_columns.
  rewrite <- (chunkRead_empty x y z). revert x y z Hx Hz Hy.
  apply (foldl_invariant (fun c' : Chunk =>
    forall x y z, 0 <= x -> 0 <= z -> 50 <= y ->
      chunkRead x y z c' = chunkRead x y z emptyChunk)); [done|].
  intros c' o _ Hc'. by apply generateColumn_ceiling.
Qed.

(** X19.  The terrain as it is generated is stone from the bottom layer up
    to the height 16: a voxel of these heights whose chunk is not in the
    map yet reads stone. *)
Theorem getBlock_fresh_terrain_deep (x y z : Z) (world : gmap (Z * Z) Chunk) :
  world !! getChunkKey (chunkCoord x) (chunkCoord z) = None ->
  0 <= y <= 16 ->
  (getBlock x y z world).1 = mkBlock stone.
Proof.
  intros Hnone Hy. rewrite getBlock_unfold. cbn [fst]. unfold WORLD_HEIGHT.
  replace ((y <? 0) || (64 <=? y)) with false by lia.
  unfold chunkAt. unfold getChunkKey in Hnone. rewrite Hnone. cbn [default fst snd].
  apply generateTerrain_deep; [apply localIndex_range..|done].
Qed.

(** X20.  The terrain as it is generated, trees included, stays below the
    height 50: a voxel at the height 50 or above whose chunk is not in the
    map yet reads air. *)
Theorem getBlock_fresh_terrain_high (x y z : Z) (world : gmap (Z * Z) Chunk) :
  world !! getChunkKey (chunkCoord x) (chunkCoord z) = None ->
  50 <= y ->
  (getBlock x y z world).1 = mkBlock air.
Proof.
  intros Hnone Hy. rewrite getBlock_unfold. cbn [fst].
  destruct ((y <? 0) || (WORLD_HEIGHT <=? y)); [done|].
  unfold chunkAt. unfold getChunkKey in Hnone. rewrite Hnone. cbn [default fst snd].
  pose proof (localIndex_range x). pose proof (localIndex_range z).
  apply generateTerrain_high; lia.
Qed.

End TerrainMore.

(** ** The player in the game loop *)

Section MovementMore.
Context `{Host}.

(** The voxel of a point of the player's box holds nothing solid. *)
Let freeAt (w : gmap (Z * Z) Chunk) (o : Q * Q * Q) : Prop :=
  isSolid (blockAt w (Qfloor o.1.1) (Qfloor o.1.2) (Qfloor o.2)) = false.

Lemma checkCollisionLoop_spec checks w :
  lazyExtension w (checkCollisionLoop checks w).2 /\
  ((checkCollisionLoop checks w).1 = false <-> Forall (freeAt w) checks).
Proof.
  revert w. induction checks as [|[[cx cy] cz] checks IH]; intros w.
  - cbn [checkCollisionLoop fst snd]. split; [apply lazyExtension_refl|].
    split; [constructor|done].
  - cbn [checkCollisionLoop].
    pose proof (lazyExtension_getBlock (Qfloor cx) (Qfloor cy) (Qfloor cz) w) as Hg.
    assert (Hb : (getBlock (Qfloor cx) (Qfloor cy) (Qfloor cz) w).1 =
                 blockAt w (Qfloor cx) (Qfloor cy) (Qfloor cz)) by done.
    destruct (getBlock (Qfloor cx) (Qfloor cy) (Qfloor cz) w) as [b w1].
    cbn [fst snd] in Hg, Hb. subst b.
    rewrite Forall_cons. unfold freeAt at 1. cbn [fst snd].
    destruct (isSolid (blockAt w (Qfloor cx) (Qfloor cy) (Qfloor cz))) eqn:Es.
    + cbn [fst snd]. split; [exact Hg|]. split; [done|]. by intros [? _].
    + destruct (IH w1) as [Hl Hiff]. split.
      * eapply lazyExtension_trans; [exact Hg|exact Hl].
      * rewrite Hiff. split.
        -- intros Hf. split; [done|]. eapply Forall_impl; [exact Hf|].
           intros o. unfold freeAt. by rewrite (lazyExtension_blockAt w w1).
        -- intros [_ Hf]. eapply Forall_impl; [exact Hf|].
           intros o. unfold freeAt. by rewrite (lazyExtension_blockAt w w1).
Qed.

Lemma checkCollision_spec x y z w :
  lazyExtension w (checkCollision x y z w).2 /\
  ((checkCollision x y z w).1 = false <-> Forall (freeAt w) (collisionChecks x y z)).
Proof. apply checkCollisionLoop_spec. Qed.

(** The player update, its collision tests named. *)
Lemma updatePlayer_unfold c g :
  let prev := player g in
  let tryX := (steer c prev).1.1.1 in
  let tryZ := (steer c prev).1.1.2 in
  let testX := checkCollision tryX (player_y prev) (player_z prev) (world g) in
  let newX := if testX.1 then player_x prev else tryX in
  let testZ := checkCollision (player_x prev) (player_y prev) tryZ testX.2 in
  let newZ := if testZ.1 then player_z prev else tryZ in
  let fallY := (player_y prev + (velY prev - 0.02))%Q in
  let testY := checkCollision newX fallY newZ testZ.2 in
  let vertical :=
    match mode prev with
    | creative =>
      let newY := if has " " c then (player_y prev + 0.1)%Q else player_y prev in
      (if has "shift" c then (newY - 0.1)%Q else newY, 0%Q, testZ.2)
    | survival =>
      if testY.1 then
        if Qltb (velY prev - 0.02) 0 then
          ((inject_Z (Qfloor fallY) + 1)%Q,
           if has " " c && negb (isMobile c) then 0.15%Q else 0%Q, testY.2)
        else (inject_Z (Qceiling fallY), 0%Q, testY.2)
      else (fallY, (velY prev - 0.02)%Q, testY.2)
    end in
  updatePlayer c g =
  mkGame vertical.2 (tntEntities g) (inventory g)
         (mkPlayer newX vertical.1.1 newZ vertical.1.2
                   (steer c prev).1.2 (steer c prev).2
                   (selectedSlot prev) (onGround prev) (mode prev)).
Proof.
  unfold updatePlayer. cbv zeta.
  destruct (steer c (player g)) as [[[tryX tryZ] newAngleX] newAngleY]. cbn [fst snd].
  destruct (checkCollision tryX _ _ (world g)) as [blockedX w1]. cbn [fst snd].
  destruct (checkCollision _ _ tryZ w1) as [blockedZ w2]. cbn [fst snd].
  destruct (mode (player g)); [|done].
  destruct (checkCollision _ _ _ w2) as [blocked w3]. cbn [fst snd].
  destruct blocked; [|done]. by destruct (Qltb _ 0).
Qed.

Lemma updatePlayer_lazyExtension c g :
  lazyExtension (world g) (world (updatePlayer c g)).
Proof.
  rewrite updatePlayer_unfold. cbv zeta. cbn [world].
  set (tryX := (steer c (player g)).1.1.1). set (tryZ := (steer c (player g)).1.1.2).
  destruct (checkCollision_spec tryX (player_y (player g)) (player_z (player g)) (world g))
    as [HlX _].
  set (testX := checkCollision tryX _ _ (world g)) in *.
  destruct (checkCollision_spec (player_x (player g)) (player_y (player g)) tryZ testX.2)
    as [HlZ _].
  set (testZ := checkCollision _ _ tryZ testX.2) in *.
  assert (Hl2 : lazyExtension (world g) testZ.2)
    by (eapply lazyExtension_trans; [exact HlX|exact HlZ]).
  destruct (mode (player g)); [|exact Hl2].
  set (newX := if testX.1 then _ else _). set (newZ := if testZ.1 then _ else _).
  set (fallY := (player_y (player g) + (velY (player g) - 0.02))%Q).
  destruct (checkCollision_spec newX fallY newZ testZ.2) as [HlY _].
  assert (Hl3 : lazyExtension (world g) (checkCollision newX fallY newZ testZ.2).2)
    by (eapply lazyExtension_trans; [exact Hl2|exact HlY]).
  by repeat case_match.
Qed.

(** X21.  The player update of the game loop only reads the world: every
    chunk of the map is kept and every voxel reads as before; the entities
    and the inventory are unchanged, and so are the selected slot, the
    [onGround] flag and the mode of the player. *)
Theorem updatePlayer_reads_only (c : Controls) (g : Game) :
  let g' := updatePlayer c g in
  world g ⊆ world g' /\
  (forall x y z, blockAt (world g') x y z = blockAt (world g) x y z) /\
  tntEntities g' = tntEntities g /\ inventory g' = inventory g /\
  selectedSlot (player g') = selectedSlot (player g) /\
  onGround (player g') = onGround (player g) /\
  mode (player g') = mode (player g).
Proof.
  cbv zeta. pose proof (updatePlayer_lazyExtension c g) as Hl.
  split; [apply Hl|]. split; [intros x y z; by apply lazyExtension_blockAt|].
  by rewrite updatePlayer_unfold.
Qed.

(** X22.  The player moves along an axis only into free space: after the
    update the x coordinate is the old one, or none of the twelve points of
    the box at the new x, the old height and the old z lies in a solid
    voxel; the same for z, with the box at the old x. *)
Theorem updatePlayer_moves_into_free_space (c : Controls) (g : Game) :
  let p := player g in
  let p' := player (updatePlayer c g) in
  let free := fun o : Q * Q * Q =>
    isSolid (blockAt (world g) (Qfloor o.1.1) (Qfloor o.1.2) (Qfloor o.2)) = false in
  (player_x p' = player_x p \/
   Forall free (collisionChecks (player_x p') (player_y p) (player_z p))) /\
  (player_z p' = player_z p \/
   Forall free (collisionChecks (player_x p) (player_y p) (player_z p'))).
Proof.
  cbv zeta. rewrite updatePlayer_unfold. cbv zeta. cbn [player player_x player_z].
  set (tryX := (steer c (player g)).1.1.1). set (tryZ := (steer c (player g)).1.1.2).
  destruct (checkCollision_spec tryX (player_y (player g)) (player_z (player g)) (world g))
    as [HlX HfX].
  set (testX := checkCollision tryX _ _ (world g)) in *.
  destruct (checkCollision_spec (player_x (player g)) (player_y (player g)) tryZ testX.2)
    as [_ HfZ].
  set (testZ := checkCollision _ _ tryZ testX.2) in *.
  split.
  - destruct testX.1; [by left|right]. by apply HfX.
  - destruct testZ.1; [by left|right].
    eapply Forall_impl; [by apply HfZ|].
    intros o. unfold freeAt. by rewrite (lazyExtension_blockAt (world g) testX.2).
Qed.

Lemma Math_PI_pos : (- Math_PI / 2 <= Math_PI / 2)%Q.
Proof. by vm_compute. Qed.

Lemma clampPitch_range a : (- Math_PI / 2 <= clampPitch a /\ clampPitch a <= Math_PI / 2)%Q.
Proof.
  unfold clampPitch. split.
  - apply Q.le_max_l.
  - apply Q.max_lub; [apply Math_PI_pos|apply Q.le_min_l].
Qed.

Lemma breakBlock_player draw1 draw2 g : player (breakBlock draw1 draw2 g) = player g.
Proof.
  destruct (raycast 5 g).1 as [h|] eqn:Hhit.
  - destruct (breakBlock_hit draw1 draw2 g h Hhit) as (w & _ & ->). cbv zeta.
    by repeat case_match.
  - pose proof (raycast_spec 5 g) as (_ & _ & _ & Hp & _). cbv zeta in Hp.
    unfold breakBlock. destruct (raycast 5 g) as [hit g1]. cbn [fst snd] in *.
    by subst hit.
Qed.

Lemma placeBlock_player g : player (placeBlock g) = player g.
Proof.
  pose proof (raycast_spec 5 g) as (_ & _ & _ & Hp & _). cbv zeta in Hp.
  destruct (placeBlock_cases g) as [->|(h & slot & ty & ox & oy & oz & _ & _ & _ & _ & _ & _ & ->)];
    done.
Qed.

Lemma handle_pitch_ok e g : pitch_ok (player g) -> pitch_ok (player (handle e g)).
Proof.
  intros Hok. destruct e as [c|mx my|d1 d2| |blockType]; cbn [handle]; [| | | |done].
  - rewrite updatePlayer_unfold. cbv zeta. cbn [player]. unfold pitch_ok. cbn [angleY].
    unfold steer. destruct (isMobile c); cbn [snd].
    + apply clampPitch_range.
    + by repeat case_match.
  - cbn [player]. unfold pitch_ok, handleMouseMove. cbn [angleY]. apply clampPitch_range.
  - by rewrite breakBlock_player.
  - by rewrite placeBlock_player.
Qed.

(** X23.  The pitch of the view stays between a quarter turn down and a
    quarter turn up, [-Math.PI / 2 <= angleY <= Math.PI / 2], whatever the
    frames, mouse moves and clicks of the game. *)
Theorem play_pitch_ok (events : list Event) (g : Game) :
  pitch_ok (player g) -> pitch_ok (player (play events g)).
Proof.
  unfold play. revert g. induction events as [|e events IH]; intros g Hok; [done|].
  cbn [foldl]. apply IH. by apply handle_pitch_ok.
Qed.





(** The slots of the inventory, 36 from the start of a game. *)
Lemma handle_inventory e g :
  inventory_ok (inventory g) ->
  inventory_ok (inventory (handle e g)) /\
  length (inventory (handle e g)) = length (inventory g).
Proof.
  intros Hok. destruct e as [c|mx my|d1 d2| |blockType]; cbn [handle inventory withInventory].
  - by rewrite updatePlayer_unfold.
  - done.
  - split; [by apply breakBlock_inventory_ok|].
    destruct (raycast 5 g).1 as [h|] eqn:Hhit.
    + destruct (breakBlock_hit d1 d2 g h Hhit) as (w & _ & ->). cbv zeta.
      unfold pickUp.
      repeat case_match; cbn [inventory igniteTNT withInventory withWorld];
        by rewrite ?length_alter.
    + pose proof (raycast_spec 5 g) as (_ & _ & Hi & _). cbv zeta in Hi.
      unfold breakBlock. destruct (raycast 5 g) as [hit g1]. cbn [fst snd] in *.
      subst hit. by rewrite Hi.
  - split; [by apply placeBlock_inventory_ok|].
    pose proof (raycast_spec 5 g) as (_ & _ & Hi & _). cbv zeta in Hi.
    destruct (placeBlock_cases g)
      as [->|(h & slot & ty & ox & oy & oz & _ & _ & _ & _ & _ & _ & ->)];
      [by rewrite Hi|].
    cbn [inventory]. destruct (mode (player g)); by rewrite ?length_alter.
  - split; [by apply giveBlock_ok|].
    unfold giveBlock. repeat case_match; by rewrite ?length_alter.
Qed.

(** X25.  From the start of a game, in either mode, the inventory keeps its
    36 slots and every slot satisfies the invariant of the slots, whatever
    the frames, mouse moves, clicks and clicks on the creative menu of the
    game. *)
Theorem play_inventory_ok (m : PlayerMode) (events : list Event) :
  let g := play events (startGame m) in
  length (inventory g) = 36%nat /\ inventory_ok (inventory g).
Proof.
  cbv zeta.
  assert (Hstart : length (inventory (startGame m)) = 36%nat /\
                   inventory_ok (inventory (startGame m))).
  { cbn [startGame inventory]. split; [by destruct m|apply startInventory_ok]. }
  unfold play. revert Hstart. generalize (startGame m).
  induction events as [|e events IH]; intros g [Hlen Hok]; [done|].
  cbn [foldl]. apply IH. destruct (handle_inventory e g Hok) as [Hok' Hlen'].
  split; [by rewrite Hlen'|done].
Qed.

End MovementMore.

(** * Closed instances of the further properties *)

(** Closes a comparison of two numerals that holds by evaluation. *)
Ltac by_comparison := vm_compute; first [reflexivity | discriminate].

Lemma breakBlock_changes_one_voxel_witness :
  blockAt (H := sample_host)
    (world (breakBlock (H := sample_host) 0.5 0.5 stoneAheadGame)) 9 45 8 = mkBlock air /\
  forall x y z, (x, y, z) <> (9, 45, 8) ->
    blockAt (H := sample_host)
      (world (breakBlock (H := sample_host) 0.5 0.5 stoneAheadGame)) x y z =
    blockAt (H := sample_host) (world stoneAheadGame) x y z.
Proof.
  pose proof (breakBlock_changes_one_voxel (H := sample_host) 0.5 0.5 stoneAheadGame) as Hbreak.
  cbv zeta in Hbreak.
  replace (raycast (H := sample_host) 5 stoneAheadGame).1
    with (Some (mkHit 9 45 8 1)) in Hbreak by (by_evaluation).
  apply Hbreak. example_wf.
Defined.

Lemma breakBlock_picks_up_one_witness :
  countOf stone (inventory (breakBlock (H := sample_host) 0.5 0.5 quarryGame)) =
    countOf stone (inventory quarryGame) + 1 /\
  (forall ty', ty' <> stone ->
     countOf ty' (inventory (breakBlock (H := sample_host) 0.5 0.5 quarryGame)) =
     countOf ty' (inventory quarryGame)).
Proof.
  assert (Hty : type (blockAt (H := sample_host) (world quarryGame) 9 45 8) = stone)
    by (by_evaluation).
  pose proof (breakBlock_picks_up_one (H := sample_host) 0.5 0.5 quarryGame (mkHit 9 45 8 1))
    as Hbreak.
  cbv zeta in Hbreak. cbn [hit_x hit_y hit_z] in Hbreak. rewrite Hty in Hbreak.
  apply Hbreak.
  - reflexivity.
  - by_evaluation.
  - discriminate.
  - exists (mkSlot (Some stone) 12). split.
    + right. left.
    + left. split; [reflexivity|]. cbn [count]. lia.
Defined.

Lemma placeBlock_never_in_player_box_witness :
  blockAt (H := sample_host) (world (placeBlock (H := sample_host) buriedGame)) 8 10 8 =
  blockAt (H := sample_host) (world buriedGame) 8 10 8.
Proof.
  apply (placeBlock_never_in_player_box (H := sample_host) buriedGame 8 10 8).
  unfold inPlayerBox. repeat split; by_comparison.
Defined.

Lemma placeBlock_keeps_hit_voxel_witness :
  blockAt (H := sample_host) (world (placeBlock (H := sample_host) stoneAheadGame)) 9 45 8 =
  blockAt (H := sample_host) (world stoneAheadGame) 9 45 8.
Proof.
  apply (placeBlock_keeps_hit_voxel (H := sample_host) stoneAheadGame (mkHit 9 45 8 1)).
  - by_evaluation.
  - discriminate.
Defined.

Lemma placeBlock_places_witness :
  blockAt (H := sample_host) (world (placeBlock (H := sample_host) stoneAheadGame)) 10 45 8 =
    mkBlock planks /\
  (forall x y z, (x, y, z) <> (10, 45, 8) ->
     blockAt (H := sample_host) (world (placeBlock (H := sample_host) stoneAheadGame)) x y z =
     blockAt (H := sample_host) (world stoneAheadGame) x y z) /\
  (mode (player stoneAheadGame) = survival ->
     countOf planks (inventory (placeBlock (H := sample_host) stoneAheadGame)) =
     countOf planks (inventory stoneAheadGame) - 1) /\
  (mode (player stoneAheadGame) = creative ->
     inventory (placeBlock (H := sample_host) stoneAheadGame) = inventory stoneAheadGame).
Proof.
  apply (placeBlock_places (H := sample_host) stoneAheadGame (mkHit 9 45 8 1)
           (mkSlot (Some planks) 3) planks 1 0 0).
  - example_wf.
  - by_evaluation.
  - reflexivity.
  - reflexivity.
  - cbn [count]. lia.
  - reflexivity.
  - intros [[_ Hx] _]. vm_compute in Hx. by apply Hx.
  - cbn [hit_y]. lia.
Defined.


Lemma explodeTNT_leaves_no_tnt_witness :
  type (blockAt (H := sample_host)
          (world (explodeTNT (H := sample_host) sampleBlast sampleSpark 8.5 45.5 8.5 tntGame))
          9 45 8) <> tnt.
Proof.
  apply (explodeTNT_leaves_no_tnt (H := sample_host) sampleBlast sampleSpark 8.5 45.5 8.5
           tntGame 9 45 8).
  - example_wf.
  - by_comparison.
Defined.

Lemma explodeTNT_only_destroys_witness :
  blockAt (H := sample_host)
    (world (explodeTNT (H := sample_host) sampleBlast sampleSpark 8.5 45.5 8.5 tntGame))
    9 45 8 = blockAt (H := sample_host) (world tntGame) 9 45 8 \/
  blockAt (H := sample_host)
    (world (explodeTNT (H := sample_host) sampleBlast sampleSpark 8.5 45.5 8.5 tntGame))
    9 45 8 = mkBlock air.
Proof.
  apply (explodeTNT_only_destroys (H := sample_host) sampleBlast sampleSpark 8.5 45.5 8.5
           tntGame 9 45 8).
  example_wf.
Defined.

Lemma explodeTNT_entities_witness :
  inventory (explodeTNT (H := sample_host) sampleBlast sampleSpark 8.5 45.5 8.5 tntGame) =
    inventory tntGame /\
  player (explodeTNT (H := sample_host) sampleBlast sampleSpark 8.5 45.5 8.5 tntGame) =
    player tntGame /\
  exists new,
    tntEntities (explodeTNT (H := sample_host) sampleBlast sampleSpark 8.5 45.5 8.5 tntGame) =
      tntEntities tntGame ++ new /\
    Forall (fun e => tnt_fuse e = 80 /\ tnt_velY e = 0.2%Q) new /\
    ((forall bx by_ bz,
        (bx - Qfloor 8.5) * (bx - Qfloor 8.5) + (by_ - Qfloor 45.5) * (by_ - Qfloor 45.5) +
          (bz - Qfloor 8.5) * (bz - Qfloor 8.5) <= 16 ->
        type (blockAt (H := sample_host) (world tntGame) bx by_ bz) <> tnt) ->
     new = []).
Proof.
  apply (explodeTNT_entities (H := sample_host) sampleBlast sampleSpark 8.5 45.5 8.5 tntGame).
  example_wf.
Defined.

Lemma explodeTNT_high_draws_clear_witness :
  blockAt (H := sample_host)
    (world (explodeTNT (H := sample_host) sampleBlast sampleSpark 8.5 45.5 8.5 tntGame))
    8 42 9 = mkBlock air.
Proof.
  apply (explodeTNT_high_draws_clear (H := sample_host) sampleBlast sampleSpark 8.5 45.5 8.5
           tntGame 8 42 9).
  - example_wf.
  - intros dx dy dz. by_comparison.
  - by_comparison.
Defined.

Lemma tickTNT_armed_reads_only_witness :
  (exists e,
     (tickTNT (H := sample_host) sampleBlast sampleSpark fallingTNT waterGame).1 = Some e /\
     tnt_fuse e = tnt_fuse fallingTNT - 1) /\
  world waterGame ⊆
    world (tickTNT (H := sample_host) sampleBlast sampleSpark fallingTNT waterGame).2 /\
  (forall x y z,
     blockAt (H := sample_host)
       (world (tickTNT (H := sample_host) sampleBlast sampleSpark fallingTNT waterGame).2) x y z =
     blockAt (H := sample_host) (world waterGame) x y z) /\
  tntEntities (tickTNT (H := sample_host) sampleBlast sampleSpark fallingTNT waterGame).2 =
    tntEntities waterGame /\
  inventory (tickTNT (H := sample_host) sampleBlast sampleSpark fallingTNT waterGame).2 =
    inventory waterGame /\
  player (tickTNT (H := sample_host) sampleBlast sampleSpark fallingTNT waterGame).2 =
    player waterGame.
Proof.
  apply (tickTNT_armed_reads_only (H := sample_host) sampleBlast sampleSpark fallingTNT
           waterGame).
  cbn [tnt_fuse fallingTNT]. lia.
Defined.

Lemma getBlock_fresh_terrain_deep_witness :
  (getBlock (H := sample_host) 8 10 8 ∅).1 = mkBlock stone.
Proof.
  apply (getBlock_fresh_terrain_deep (H := sample_host) 8 10 8 ∅).
  - apply lookup_empty.
  - lia.
Defined.

Lemma getBlock_fresh_terrain_high_witness :
  (getBlock (H := sample_host) (-20) 50 35 ∅).1 = mkBlock air.
Proof.
  apply (getBlock_fresh_terrain_high (H := sample_host) (-20) 50 35 ∅).
  - apply lookup_empty.
  - lia.
Defined.

Lemma play_pitch_ok_witness :
  pitch_ok
    (player (play (H := sample_host)
               [MouseMove 100 (-900); Frame flightControls; MouseMove 0 2000; RightClick]
               (startGame creative))).
Proof.
  apply (play_pitch_ok (H := sample_host)).
  by_evaluation.
Defined.


(** Under the roof the player rises as in the open: the third frame ends
    inside the voxel of the roof. *)
Example creative_flight_through_roof :
  blockAt (H := sample_host) (world roofGame) 8 46 8 = mkBlock stone /\
  Qfloor (player_y (player (play (H := sample_host)
                              (Frame <$> [flightControls; flightControls; flightControls])
                              roofGame))) = 46.
Proof. split; by_evaluation. Qed.
